(** * Piano exercise generator (app.py): a shallow embedding and its properties

    The program is glue around a music-theory object model (music21), a MIDI
    writer (midiutil) and a form UI.  The embedding keeps the program's own
    logic -- the chord-quality rule table, the arpeggio text, the random
    melody slices, the MIDI timing cursor and the report assembly -- and
    takes the music-theory model as an interface ([MusicModel]).

    Strings are Python [str] values restricted to code points below 256,
    one [ascii] per code point. *)

From Stdlib Require Import ZArith List String Ascii Bool Arith Lia.
From Stdlib Require Import DecimalString Sorted.
Import ListNotations.
Open Scope list_scope.
Open Scope string_scope.

(* ================================================================== *)
(** * Python string primitives used by app.py *)
(* ================================================================== *)

Module PyStr.

(** [str.isspace] on one code point below 256: TAB..CR, FS..US, SPACE,
    NEL (133) and NBSP (160). *)
Definition is_space (c : ascii) : bool :=
  let n := nat_of_ascii c in
  (((9 <=? n) && (n <=? 13)) || ((28 <=? n) && (n <=? 32))
   || (n =? 133) || (n =? 160))%nat.

(** [str.lower] on one code point below 256: A..Z and the Latin-1 capitals
    (192..222 without the multiplication sign 215) move up by 32. *)
Definition lower_char (c : ascii) : ascii :=
  let n := nat_of_ascii c in
  if (((65 <=? n) && (n <=? 90))
      || ((192 <=? n) && (n <=? 222) && negb (n =? 215)))%nat
  then ascii_of_nat (n + 32) else c.

(** [s.lower()] *)
Fixpoint lower (s : string) : string :=
  match s with
  | EmptyString => EmptyString
  | String c s' => String (lower_char c) (lower s')
  end.

(** [sub in s] *)
Fixpoint contains (sub s : string) : bool :=
  if prefix sub s then true
  else match s with
       | EmptyString => false
       | String _ s' => contains sub s'
       end.

(** White space only. *)
Definition blank (s : string) : Prop :=
  forall c, In c (list_ascii_of_string s) -> is_space c = true.

(** [s.lstrip()] *)
Fixpoint lstrip (s : string) : string :=
  match s with
  | EmptyString => EmptyString
  | String c s' => if is_space c then lstrip s' else s
  end.

(** [s.rstrip()]: a character is kept when it is not white space or when
    something is kept after it. *)
Fixpoint rstrip (s : string) : string :=
  match s with
  | EmptyString => EmptyString
  | String c s' =>
      match rstrip s' with
      | EmptyString => if is_space c then EmptyString else String c EmptyString
      | r => String c r
      end
  end.

(** [s.strip()] *)
Definition strip (s : string) : string := rstrip (lstrip s).

(** The scan of [s.split()] (no separator): [cur] is the token being read,
    if any; runs of white space separate tokens and produce no empty
    token. *)
Fixpoint split_ws_from (cur : option string) (s : string) : list string :=
  match s with
  | EmptyString => match cur with None => [] | Some t => [t] end
  | String c s' =>
      if is_space c then
        match cur with
        | None => split_ws_from None s'
        | Some t => t :: split_ws_from None s'
        end
      else
        match cur with
        | None => split_ws_from (Some (String c EmptyString)) s'
        | Some t => split_ws_from (Some (t ++ String c EmptyString)) s'
        end
  end.

(** [s.split()] *)
Definition split_ws (s : string) : list string := split_ws_from None s.

(** [sep.join(l)] *)
Fixpoint join (sep : string) (l : list string) : string :=
  match l with
  | [] => EmptyString
  | [x] => x
  | x :: rest => x ++ sep ++ join sep rest
  end.

(** The scan of [s.split(sep)] for a non-empty [sep]: leftmost occurrences
    of [sep], not overlapping.  [skip] counts the characters of a separator
    just matched that are still to be dropped; [cur] is the piece being
    read. *)
Fixpoint split_from (sep : string) (skip : nat) (cur : string) (s : string)
  : list string :=
  match s with
  | EmptyString => [cur]
  | String c s' =>
      match skip with
      | S k => split_from sep k cur s'
      | O =>
          if prefix sep s
          then cur :: split_from sep (String.length sep - 1) EmptyString s'
          else split_from sep 0 (cur ++ String c EmptyString) s'
      end
  end.

(** [s.split(sep)], for a non-empty separator. *)
Definition split (sep s : string) : list string :=
  split_from sep 0 EmptyString s.

(** [l[i:j]] for a list and two integer bounds: a negative bound counts
    from the end, and both are clamped to the list. *)
Definition clamp_index {A} (l : list A) (i : Z) : nat :=
  let n := Z.of_nat (List.length l) in
  let i' := if (i <? 0)%Z then Z.max 0 (i + n) else Z.min i n in
  Z.to_nat i'.

Definition slice {A} (l : list A) (i j : Z) : list A :=
  let a := clamp_index l i in
  let b := clamp_index l j in
  firstn (b - a) (skipn a l).

End PyStr.


(* ================================================================== *)
(** * Exceptions, the collaborators' interface and the effect monad *)
(* ================================================================== *)

(** What a call can raise: [IndexError] from the program's own list
    indexing, and whatever a collaborator raises on input it rejects. *)
Inductive Exn : Type :=
  | IndexError
  | LibraryError (msg : string).

Inductive Result (A : Type) : Type :=
  | Ok (a : A)
  | Raise (e : Exn).
Arguments Ok {A} a.
Arguments Raise {A} e.

(** [scale.MajorScale()] and [scale.MinorScale()]. *)
Inductive ScaleTemplate : Type := MajorScale | MinorScale.

(** The music-theory object model the program calls (music21's [chord],
    [note], [key] and [scale]): only the operations app.py uses.  The
    constructors and [root] and [derive] may raise; the queries do not. *)
Class MusicModel : Type := {
  Chord : Type;
  Note : Type;
  Pitch : Type;
  Key : Type;
  Scale : Type;
  chord_Chord : string -> Result Chord;          (* chord.Chord(name) *)
  root : Chord -> Result Pitch;                  (* ch.root() *)
  notes : Chord -> list Note;                    (* ch.notes *)
  pitches : Chord -> list Pitch;                 (* ch.pitches *)
  isMajorTriad : Chord -> bool;
  isMinorTriad : Chord -> bool;
  isDominantSeventh : Chord -> bool;
  note_nameWithOctave : Note -> string;          (* n.nameWithOctave *)
  note_transpose : Note -> Z -> Note;            (* n.transpose(k) *)
  pitch_name : Pitch -> string;                  (* p.name *)
  pitch_nameWithOctave : Pitch -> string;        (* p.nameWithOctave *)
  pitch_midi : Pitch -> Z;                       (* p.midi *)
  key_Key : string -> Result Key;                (* key.Key(s) *)
  scale_derive : ScaleTemplate -> Pitch -> Result Scale;  (* sc.derive(p) *)
  getPitches : Scale -> list Pitch               (* sc.getPitches() *)
}.

(** The MIDI writer's object (midiutil's [MIDIFile]) as the calls it has
    received, in order. *)
Record TempoEvent : Type := mkTempo {
  tempo_track : Z; tempo_time : Z; tempo_bpm : Z
}.

Record NoteEvent : Type := mkNote {
  note_track : Z; note_channel : Z; note_pitch : Z;
  note_time : Z; note_duration : Z; note_volume : Z
}.

Record MIDIFile : Type := mkMIDIFile {
  numTracks : Z;
  tempo_events : list TempoEvent;
  note_events : list NoteEvent
}.

Definition addTempo (midi : MIDIFile) (track time tempo : Z) : MIDIFile :=
  mkMIDIFile (numTracks midi)
             (tempo_events midi ++ [mkTempo track time tempo])%list
             (note_events midi).

Definition addNote (midi : MIDIFile)
    (track channel pitch time duration volume : Z) : MIDIFile :=
  mkMIDIFile (numTracks midi)
             (tempo_events midi)
             (note_events midi
                ++ [mkNote track channel pitch time duration volume])%list.

(** [io.BytesIO]: the bytes are the writer's encoding of a [MIDIFile],
    kept here as the object that was written, and the stream position,
    an offset or the end of what was written. *)
Inductive Position : Type :=
  | Offset (n : Z)
  | EndOfData.

Record BytesIO : Type := mkBytesIO {
  written : option MIDIFile;
  position : Position
}.

Definition writeFile (midi : MIDIFile) (f : BytesIO) : BytesIO :=
  mkBytesIO (Some midi) EndOfData.

Definition seek (f : BytesIO) (pos : Z) : BytesIO :=
  mkBytesIO (written f) (Offset pos).

Section Effects.
Context {model : MusicModel}.

(** Calls that leave the program, as they are observed from outside. *)
Inductive Event : Type :=
  | CallChord (name : string)
  | CallKey (name : string)
  | CallDerive (template : ScaleTemplate) (tonic : Pitch)
  | CallRandint (a b drawn : Z)
  | CallMIDIFile (tracks : Z).

(** The world a call runs in: the calls made so far, and the random
    source, an arbitrary sequence of raw values read at a cursor. *)
Record World : Type := mkWorld {
  trace : list Event;
  draws : nat -> nat;
  cursor : nat
}.

Definition M (A : Type) : Type := World -> Result A * World.

Definition ret {A} (a : A) : M A := fun w => (Ok a, w).

Definition bind {A B} (m : M A) (k : A -> M B) : M B :=
  fun w =>
    match m w with
    | (Ok a, w') => k a w'
    | (Raise e, w') => (Raise e, w')
    end.

Definition raise {A} (e : Exn) : M A := fun w => (Raise e, w).

Definition lift {A} (r : Result A) : M A := fun w => (r, w).

Definition emit (e : Event) : M unit :=
  fun w => (Ok tt, mkWorld (trace w ++ [e])%list (draws w) (cursor w)).

(** [try: body / except: handler] with a bare [except]. *)
Definition try_except {A} (body handler : M A) : M A :=
  fun w =>
    match body w with
    | (Ok a, w') => (Ok a, w')
    | (Raise _, w') => handler w'
    end.

(** [for x in l: s = body x s], the loop's variables threaded as [s]. *)
Fixpoint for_in {A S} (l : list A) (body : A -> S -> M S) (s : S) : M S :=
  match l with
  | [] => ret s
  | x :: rest => bind (body x s) (for_in rest body)
  end.

(** [random.randint(a, b)]: the next raw value brought into [a, b]. *)
Definition randint (a b : Z) : M Z :=
  fun w =>
    let drawn := (a + Z.of_nat (draws w (cursor w)) mod (b - a + 1))%Z in
    (Ok drawn,
     mkWorld (trace w ++ [CallRandint a b drawn])%list (draws w)
             (S (cursor w))).

End Effects.

Declare Scope monad_scope.
Delimit Scope monad_scope with monad.
Notation "x <- m ;; k" := (bind m (fun x => k))
  (at level 61, m at next level, right associativity) : monad_scope.
Notation "m ;; k" := (bind m (fun _ => k))
  (at level 61, right associativity) : monad_scope.
Notation "' pat <- m ;; k" := (bind m (fun x => match x with pat => k end))
  (at level 61, pat pattern, m at next level, right associativity)
  : monad_scope.
Open Scope monad_scope.

(* ================================================================== *)
(** * The program: app.py *)
(* ================================================================== *)

(** The line feed of the report's ["\n"]. *)
Definition nl : string := String (ascii_of_nat 10) EmptyString.

(** What [generate_exercises] returns: the message alone, or the pair of
    the report and the MIDI stream. *)
Inductive ExerciseResult : Type :=
  | Message (text : string)
  | ReportAndMidi (output : string) (midi_file : BytesIO).

Section Program.
Context {model : MusicModel}.

(** [chord.Chord(name)] *)
Definition call_Chord (name : string) : M Chord :=
  emit (CallChord name) ;; lift (chord_Chord name).

(** [key.Key(name)] *)
Definition call_Key (name : string) : M Key :=
  emit (CallKey name) ;; lift (key_Key name).

(** [template.derive(tonic)] *)
Definition call_derive (template : ScaleTemplate) (tonic : Pitch) : M Scale :=
  emit (CallDerive template tonic) ;; lift (scale_derive template tonic).

(** [MIDIFile(tracks)] *)
Definition call_MIDIFile (tracks : Z) : M MIDIFile :=
  emit (CallMIDIFile tracks) ;; ret (mkMIDIFile tracks [] []).

(** [l[0]] *)
Definition index0 {A} (l : list A) : M A :=
  match l with
  | [] => raise IndexError
  | x :: _ => ret x
  end.

(** app.py, lines 7-18. *)
Definition get_scales_for_chord (chord_name song_key : string)
  : M (list string) :=
  chord_obj <- call_Chord chord_name ;;
  r <- lift (root chord_obj) ;;
  let root := pitch_name r in
  if isMajorTriad chord_obj then
    ret [root ++ " Ionian (Major)"; root ++ " Lydian"]
  else if isMinorTriad chord_obj then
    ret [root ++ " Dorian"; root ++ " Aeolian (Natural Minor)"]
  else if isDominantSeventh chord_obj then
    ret [root ++ " Mixolydian"; root ++ " Altered Dominant"]
  else
    ret [root ++ " Major (default)"].

(** The list [arpeggio] of line 23: the notes' names, then the first note
    an octave up. *)
Definition arpeggio_of (ch : Chord) : M (list string) :=
  let names := map note_nameWithOctave (notes ch) in
  first <- index0 (notes ch) ;;
  ret (names ++ [note_nameWithOctave (note_transpose first 12)])%list.

(** app.py, lines 20-24. *)
Definition generate_arpeggio_pattern (chord_name : string) : M string :=
  ch <- call_Chord chord_name ;;
  arpeggio <- arpeggio_of ch ;;
  ret (PyStr.join " -> " (arpeggio ++ rev arpeggio)%list).

(** The template of line 32:
    [MajorScale() if 'major' in song_key.lower() else MinorScale()]. *)
Definition scale_template (song_key : string) : ScaleTemplate :=
  if PyStr.contains "major" (PyStr.lower song_key)
  then MajorScale else MinorScale.

(** The body of the loop of lines 31-35, [melody_notes] threaded. *)
Definition melody_step (song_key : string) (ch : string)
    (melody_notes : list string) : M (list string) :=
  let sc := scale_template song_key in
  c <- call_Chord ch ;;
  r <- lift (root c) ;;
  sc <- call_derive sc r ;;
  let all := getPitches sc in
  i <- randint 0 4 ;;
  j <- randint 5 7 ;;
  let pitches := PyStr.slice all i j in
  ret (melody_notes ++ map pitch_nameWithOctave pitches)%list.

(** The [try] block of lines 29-36. *)
Definition melody_body (chords : list string) (song_key : string)
  : M string :=
  k <- call_Key song_key ;;
  melody_notes <- for_in chords (melody_step song_key) [] ;;
  ret (PyStr.join " " melody_notes).

(** The message of line 38; its dash (U+2014) is written as the three
    bytes of its UTF-8 form. *)
Definition melody_fallback : string :=
  "Could not generate melody—check key format (e.g., 'C major').".

(** app.py, lines 26-38. *)
Definition generate_melody_idea (chords : list string) (song_key : string)
  : M string :=
  try_except (melody_body chords song_key) (ret melody_fallback).

(** The inner loop of lines 52-54, [midi] and [time] threaded. *)
Definition add_pitch (track channel duration volume : Z)
    (acc : MIDIFile * Z) (pitch : Pitch) : MIDIFile * Z :=
  let '(midi, time) := acc in
  (addNote midi track channel (pitch_midi pitch) time duration volume,
   (time + duration)%Z).

(** The body of the loop of lines 50-55. *)
Definition midi_step (track channel duration volume : Z)
    (ch_name : string) (acc : MIDIFile * Z) : M (MIDIFile * Z) :=
  ch <- call_Chord ch_name ;;
  let '(midi, time) :=
    fold_left (add_pitch track channel duration volume) (pitches ch) acc in
  ret (midi, (time + duration * 2)%Z).

(** Lines 42-55: the [MIDIFile] as it stands when it is written out. *)
Definition midi_of (chords : list string) : M MIDIFile :=
  midi <- call_MIDIFile 1 ;;
  let track := 0%Z in
  let time := 0%Z in
  let midi := addTempo midi track time 120 in
  let channel := 0%Z in
  let volume := 100%Z in
  let duration := 1%Z in
  '(midi, _) <- for_in chords (midi_step track channel duration volume)
                      (midi, time) ;;
  ret midi.

(** app.py, lines 40-60. *)
Definition create_midi_exercise (chords : list string) : M BytesIO :=
  midi <- midi_of chords ;;
  let binary_io := mkBytesIO None (Offset 0) in
  let binary_io := writeFile midi binary_io in
  let binary_io := seek binary_io 0 in
  ret binary_io.

(** The loop of lines 71-73. *)
Definition scales_step (song_key : string) (ch : string) (output : string)
  : M string :=
  scales <- get_scales_for_chord ch song_key ;;
  ret (output ++ "- Over " ++ ch ++ ": " ++ PyStr.join ", " scales ++ nl).

(** The loop of lines 77-79. *)
Definition arpeggio_step (ch : string) (output : string) : M string :=
  arp <- generate_arpeggio_pattern ch ;;
  ret (output ++ "- For " ++ ch ++ ": " ++ arp ++ nl).

(** app.py, lines 62-89. *)
Definition generate_exercises (chord_progression song_key : string)
  : M ExerciseResult :=
  let chords := PyStr.split_ws (PyStr.strip chord_progression) in
  match chords with
  | [] => ret (Message "Please enter a chord progression.")
  | _ :: _ =>
      let output :=
        "**Song Key:** " ++ song_key ++ nl
        ++ "**Chord Progression:** " ++ PyStr.join " " chords ++ nl ++ nl in
      let output := output ++ "### Suggested Scales for Improvisation:" ++ nl in
      output <- for_in chords (scales_step song_key) output ;;
      let output :=
        output ++ nl
        ++ "### Arpeggio Exercises (Practice in both hands, ascending/descending):"
        ++ nl in
      output <- for_in chords arpeggio_step output ;;
      melody_idea <- generate_melody_idea chords song_key ;;
      let output :=
        output ++ nl
        ++ "### Simple Melody Improv Idea (Play over the progression):" ++ nl
        ++ melody_idea ++ nl ++ nl in
      let output :=
        output
        ++ "Practice Tip: Start slow, loop the progression, and gradually add your own variations using the scales above." in
      midi_file <- create_midi_exercise chords ;;
      ret (ReportAndMidi output midi_file)
  end.

(** The default of the [song_key] parameter. *)
Definition default_song_key : string := "C major".

End Program.

(* ================================================================== *)
(** * A sample music model *)
(* ================================================================== *)

(** A small instance of [MusicModel], on which the program can be run.
    A pitch is its MIDI number, spelled with sharps; a few chord symbols
    are known, each with its notes from the root up; a key is accepted
    when its first word is a note letter; a scale has eight pitches. *)
Module Sample.

Definition pc_name (pc : Z) : string :=
  match pc with
  | 0 => "C" | 1 => "C#" | 2 => "D" | 3 => "D#" | 4 => "E" | 5 => "F"
  | 6 => "F#" | 7 => "G" | 8 => "G#" | 9 => "A" | 10 => "A#" | _ => "B"
  end%Z.

Definition name (p : Z) : string := pc_name (p mod 12).

Definition nameWithOctave (p : Z) : string :=
  name p ++ NilEmpty.string_of_int (Z.to_int (p / 12 - 1)).

Definition parse_chord (symbol : string) : Result (list Z) :=
  if String.eqb symbol "C" then Ok [60; 64; 67]%Z
  else if String.eqb symbol "F" then Ok [65; 69; 72]%Z
  else if String.eqb symbol "G" then Ok [67; 71; 74]%Z
  else if String.eqb symbol "Am" then Ok [69; 72; 76]%Z
  else if String.eqb symbol "G7" then Ok [67; 71; 74; 77]%Z
  else if String.eqb symbol "Csus4" then Ok [60; 65; 67]%Z
  else Raise (LibraryError symbol).

Definition chord_root (c : list Z) : Result Z :=
  match c with
  | [] => Raise (LibraryError "no root")
  | p :: _ => Ok p
  end.

Definition intervals (c : list Z) : list Z :=
  match c with
  | [] => []
  | p :: rest => map (fun q => (q - p)%Z) rest
  end.

Definition same_intervals (c : list Z) (shape : list Z) : bool :=
  if list_eq_dec Z.eq_dec (intervals c) shape then true else false.

Definition parse_key (s : string) : Result string :=
  match PyStr.split_ws s with
  | [] => Raise (LibraryError s)
  | tonic :: _ =>
      if existsb (String.eqb tonic) ["A"; "B"; "C"; "D"; "E"; "F"; "G"]
      then Ok tonic else Raise (LibraryError s)
  end.

Definition steps (t : ScaleTemplate) : list Z :=
  match t with
  | MajorScale => [0; 2; 4; 5; 7; 9; 11; 12]
  | MinorScale => [0; 2; 3; 5; 7; 8; 10; 12]
  end%Z.

#[global] Instance model : MusicModel := {|
  Chord := list Z;
  Note := Z;
  Pitch := Z;
  Key := string;
  Scale := list Z;
  chord_Chord := parse_chord;
  root := chord_root;
  notes := fun c => c;
  pitches := fun c => c;
  isMajorTriad := fun c => same_intervals c [4; 7]%Z;
  isMinorTriad := fun c => same_intervals c [3; 7]%Z;
  isDominantSeventh := fun c => same_intervals c [4; 7; 10]%Z;
  note_nameWithOctave := nameWithOctave;
  note_transpose := fun n k => (n + k)%Z;
  pitch_name := name;
  pitch_nameWithOctave := nameWithOctave;
  pitch_midi := fun p => p;
  key_Key := parse_key;
  scale_derive := fun t tonic => Ok (map (fun d => (tonic + d)%Z) (steps t));
  getPitches := fun sc => sc
|}.

(** A world with nothing called yet and [raw] as its random source. *)
Definition fresh (raw : nat -> nat) : World := mkWorld [] raw 0.

(** The random source that gives [a], then [b], then zeros. *)
Definition two_draws (a b : nat) : nat -> nat :=
  fun n => match n with 0 => a | 1 => b | _ => 0 end.

End Sample.

(** A second model, the sample one but for two things a [MusicModel] may
    do: the symbol "NC" parses to a chord without notes, and a derived
    scale has the first four pitches only. *)
Module Sparse.

Definition parse_chord (symbol : string) : Result (list Z) :=
  if String.eqb symbol "NC" then Ok [] else Sample.parse_chord symbol.

Definition steps (t : ScaleTemplate) : list Z :=
  firstn 4 (Sample.steps t).

Definition model : MusicModel := {|
  Chord := list Z;
  Note := Z;
  Pitch := Z;
  Key := string;
  Scale := list Z;
  chord_Chord := parse_chord;
  root := Sample.chord_root;
  notes := fun c => c;
  pitches := fun c => c;
  isMajorTriad := fun c => Sample.same_intervals c [4; 7]%Z;
  isMinorTriad := fun c => Sample.same_intervals c [3; 7]%Z;
  isDominantSeventh := fun c => Sample.same_intervals c [4; 7; 10]%Z;
  note_nameWithOctave := Sample.nameWithOctave;
  note_transpose := fun n k => (n + k)%Z;
  pitch_name := Sample.name;
  pitch_nameWithOctave := Sample.nameWithOctave;
  pitch_midi := fun p => p;
  key_Key := Sample.parse_key;
  scale_derive := fun t tonic => Ok (map (fun d => (tonic + d)%Z) (steps t));
  getPitches := fun sc => sc
|}.

(** A world of this model with nothing called yet. *)
Definition fresh (raw : nat -> nat) : @World model := mkWorld [] raw 0.

End Sparse.

(* ================================================================== *)
(** * The specification's readings, and the exporter's timing in closed form *)
(* ================================================================== *)

(** The scale family as the specification words it: the minor template
    when the key contains "minor" whatever the case, the major one
    otherwise. *)
Definition spec_scale_template (song_key : string) : ScaleTemplate :=
  if PyStr.contains "minor" (PyStr.lower song_key)
  then MinorScale else MajorScale.

(** The arpeggio as the specification words it: the ascending half, then
    its reverse without a second copy of the top note. *)
Definition spec_arpeggio_tokens (ascending : list string) : list string :=
  (ascending ++ tl (rev ascending))%list.

Section Expected.
Context {model : MusicModel}.

(** The ascending half of a chord's arpeggio, [first] being its first
    note. *)
Definition ascending (ch : Chord) (first : Note) : list string :=
  (map note_nameWithOctave (notes ch)
   ++ [note_nameWithOctave (note_transpose first 12)])%list.

(** The notes of one chord, one time unit apart from [time] on. *)
Fixpoint notes_from (time : Z) (ps : list Pitch) : list NoteEvent :=
  match ps with
  | [] => []
  | p :: rest =>
      mkNote 0 0 (pitch_midi p) time 1 100 :: notes_from (time + 1) rest
  end.

(** The notes of a progression chord by chord: a chord starts two units
    after the end of the last note of the chord before it. *)
Fixpoint blocks_from (time : Z) (chs : list Chord) : list (list NoteEvent) :=
  match chs with
  | [] => []
  | ch :: rest =>
      notes_from time (pitches ch)
      :: blocks_from (time + Z.of_nat (List.length (pitches ch)) + 2) rest
  end.

(** A token without a space character, as pitch names are. *)
Definition spaceless (t : string) : Prop := PyStr.contains " " t = false.

(** Every run of [m] only appends calls, all of them satisfying [P]. *)
Definition appends (P : Event -> Prop) {A} (m : M A) : Prop :=
  forall w, exists new,
    trace (snd (m w)) = (trace w ++ new)%list /\ Forall P new.

(** The call [e], if it is a call to [derive], uses the template [t]. *)
Definition derives_with (t : ScaleTemplate) (e : Event) : Prop :=
  match e with
  | CallDerive t' _ => t' = t
  | _ => True
  end.

End Expected.

(* ================================================================== *)
(** * Notions for the report, the calls and the timing *)
(* ================================================================== *)

(** A token as [split()] gives them: not empty, no white space in it. *)
Definition wordlike (t : string) : Prop :=
  t <> "" /\ forall c, In c (list_ascii_of_string t) -> PyStr.is_space c = false.

(** The strings of a list one after the other. *)
Definition flatten (l : list string) : string :=
  fold_right append "" l.

(** One bullet of the scales section, [suggest ch] being the chord's
    suggestions (line 73). *)
Definition scale_bullet (suggest : string -> list string) (ch : string)
  : string :=
  "- Over " ++ ch ++ ": " ++ PyStr.join ", " (suggest ch) ++ nl.

(** One bullet of the arpeggio section, [pattern ch] being the chord's
    arpeggio (line 79). *)
Definition arpeggio_bullet (pattern : string -> string) (ch : string)
  : string :=
  "- For " ++ ch ++ ": " ++ pattern ch ++ nl.

(** The whole report of lines 67-84 in one piece. *)
Definition report_text (song_key : string) (chords : list string)
    (suggest : string -> list string) (pattern : string -> string)
    (melody : string) : string :=
  "**Song Key:** " ++ song_key ++ nl
  ++ "**Chord Progression:** " ++ PyStr.join " " chords ++ nl ++ nl
  ++ "### Suggested Scales for Improvisation:" ++ nl
  ++ flatten (map (scale_bullet suggest) chords)
  ++ nl
  ++ "### Arpeggio Exercises (Practice in both hands, ascending/descending):"
  ++ nl
  ++ flatten (map (arpeggio_bullet pattern) chords)
  ++ nl
  ++ "### Simple Melody Improv Idea (Play over the progression):" ++ nl
  ++ melody ++ nl ++ nl
  ++ "Practice Tip: Start slow, loop the progression, and gradually add your own variations using the scales above.".

Section Notions.
Context {model : MusicModel}.

(** A chord symbol the scales and arpeggio sections go through: it
    parses, the chord has a root and a first note. *)
Definition playable (name : string) : Prop :=
  exists ch p first rest,
    chord_Chord name = Ok ch /\ root ch = Ok p /\ notes ch = first :: rest.

(** A chord symbol the melody loop goes through under [song_key]: it
    parses, has a root, and the scale derived on it has seven pitches or
    more. *)
Definition singable (song_key name : string) : Prop :=
  exists ch p sc,
    chord_Chord name = Ok ch /\ root ch = Ok p
    /\ scale_derive (scale_template song_key) p = Ok sc
    /\ (7 <= List.length (getPitches sc))%nat.

(** [seg] is a segment the melody loop can add for the chord symbol
    [name] under [song_key]: the names of [len] consecutive pitches of
    the scale derived on the chord's root, from index [start] on, the
    run holding index 4 and ending before index 7. *)
Definition segment_of (song_key name : string) (seg : list string) : Prop :=
  exists ch p sc (start len : nat),
    chord_Chord name = Ok ch /\ root ch = Ok p
    /\ scale_derive (scale_template song_key) p = Ok sc
    /\ (start <= 4 < start + len)%nat /\ (start + len <= 7)%nat
    /\ seg = map pitch_nameWithOctave
               (firstn len (skipn start (getPitches sc)))
    /\ List.length seg = len.

(** The call [e], if it builds a chord, builds it from one of [names]. *)
Definition chord_call_in (names : list string) (e : Event) : Prop :=
  match e with
  | CallChord n => In n names
  | _ => True
  end.

(** The number of notes of the first [i] chords. *)
Definition notes_before (parsed : list Chord) (i : nat) : nat :=
  list_sum (map (fun ch => List.length (pitches ch)) (firstn i parsed)).

End Notions.

(* ================================================================== *)
(** * Properties of the string primitives *)
(* ================================================================== *)

Module PyStrFacts.
Import PyStr.

Lemma append_empty_r (s : string) : s ++ "" = s.
Proof. induction s as [|c s IH]; simpl; [reflexivity | now rewrite IH]. Qed.

Lemma append_assoc (a b c : string) : (a ++ b) ++ c = a ++ (b ++ c).
Proof. induction a as [|x a IH]; simpl; [reflexivity | now rewrite IH]. Qed.

Lemma prefix_refl_app (a r : string) : prefix a (a ++ r) = true.
Proof.
  induction a as [|x a IH]; simpl; [now destruct r|].
  destruct (ascii_dec x x) as [_|N]; [exact IH | now elim N].
Qed.

(** A string without the character [c0] does not start a separator that
    begins with [c0]. *)
Lemma contains_char_cons (c0 a : ascii) (t : string) :
  contains (String c0 "") (String a t) = false ->
  c0 <> a /\ contains (String c0 "") t = false.
Proof.
  simpl. destruct (ascii_dec c0 a) as [E|N].
  - destruct t; discriminate.
  - intros H; split; [exact N | exact H].
Qed.

Section Split.
Variables (c0 : ascii) (sep' : string).
Local Abbreviation sep := (String c0 sep').

Lemma split_from_token (t r cur : string) :
  contains (String c0 "") t = false ->
  split_from sep 0 cur (t ++ r) = split_from sep 0 (cur ++ t) r.
Proof.
  revert cur; induction t as [|a t IH]; intros cur H.
  - simpl. now rewrite append_empty_r.
  - apply contains_char_cons in H as [N H].
    simpl. destruct (ascii_dec c0 a) as [E|_]; [now elim N|].
    rewrite (IH _ H), append_assoc. reflexivity.
Qed.

Lemma split_from_skip (s1 r cur : string) :
  split_from sep (String.length s1) cur (s1 ++ r) = split_from sep 0 cur r.
Proof.
  induction s1 as [|a s1 IH]; [reflexivity | exact IH].
Qed.

Lemma split_from_separator (r cur : string) :
  split_from sep 0 cur (sep ++ r) = cur :: split_from sep 0 "" r.
Proof.
  cbn [append split_from].
  change (String c0 (sep' ++ r)) with (sep ++ r).
  rewrite prefix_refl_app.
  replace (String.length sep - 1) with (String.length sep')
    by (simpl; lia).
  now rewrite split_from_skip.
Qed.

Lemma split_from_join (t : string) (l : list string) (cur : string) :
  Forall (fun x => contains (String c0 "") x = false) (t :: l) ->
  split_from sep 0 cur (join sep (t :: l)) = (cur ++ t) :: l.
Proof.
  revert t cur; induction l as [|t2 l IH]; intros t cur H.
  - inversion H as [|? ? Ht _]; subst. cbn [join].
    rewrite <- (append_empty_r t) at 1.
    rewrite (split_from_token _ _ _ Ht). reflexivity.
  - inversion H as [|? ? Ht Hl]; subst.
    change (join sep (t :: t2 :: l)) with (t ++ sep ++ join sep (t2 :: l)).
    rewrite (split_from_token _ _ _ Ht), split_from_separator, (IH _ _ Hl).
    reflexivity.
Qed.

(** [sep.join(l).split(sep) == l] when [l] is not empty and no item holds
    the first character of [sep]. *)
Lemma split_join (l : list string) :
  l <> [] ->
  Forall (fun x => contains (String c0 "") x = false) l ->
  split sep (join sep l) = l.
Proof.
  destruct l as [|t l]; [congruence|]; intros _ H.
  unfold split. now rewrite split_from_join.
Qed.

End Split.

(** A slice between two bounds inside the list has their difference as its
    length. *)
Lemma slice_length {A} (l : list A) (i j : Z) :
  (0 <= i <= j)%Z -> (j <= Z.of_nat (List.length l))%Z ->
  slice l i j = firstn (Z.to_nat (j - i)) (skipn (Z.to_nat i) l)
  /\ List.length (slice l i j) = Z.to_nat (j - i).
Proof.
  intros Hij Hj. unfold slice, clamp_index.
  destruct (Z.ltb_spec i 0) as [?|_]; [lia|].
  destruct (Z.ltb_spec j 0) as [?|_]; [lia|].
  rewrite !Z.min_l by lia.
  replace (Z.to_nat j - Z.to_nat i)%nat with (Z.to_nat (j - i)) by lia.
  split; [reflexivity|].
  rewrite length_firstn, length_skipn. lia.
Qed.

(** Nothing but white space splits into no token, and conversely. *)
Lemma split_ws_from_none_nil (s : string) :
  split_ws_from None s = [] <->
  (forall c, In c (list_ascii_of_string s) -> is_space c = true).
Proof.
  induction s as [|a s IH]; simpl.
  - split; [intros _ c [] | reflexivity].
  - destruct (is_space a) eqn:E.
    + rewrite IH. split.
      * intros H c [<-|Hc]; [exact E | now apply H].
      * intros H c Hc. apply H. now right.
    + split.
      * intros H. exfalso. revert H.
        generalize (String a ""). clear.
        induction s as [|b s IH]; intros t; simpl; [discriminate|].
        destruct (is_space b); [discriminate | apply IH].
      * intros H. specialize (H a (or_introl eq_refl)). congruence.
Qed.

Lemma blank_cons (a : ascii) (s : string) :
  blank (String a s) <-> is_space a = true /\ blank s.
Proof.
  unfold blank; simpl. split.
  - intros H. split; [apply H; now left | intros c Hc; apply H; now right].
  - intros [Ha Hs] c [<-|Hc]; [exact Ha | now apply Hs].
Qed.

Lemma lstrip_blank (s : string) : blank (lstrip s) <-> blank s.
Proof.
  induction s as [|a s IH]; [reflexivity|]. simpl.
  destruct (is_space a) eqn:E; [|reflexivity].
  rewrite IH, blank_cons. tauto.
Qed.

Lemma rstrip_empty (s : string) : rstrip s = "" <-> blank s.
Proof.
  induction s as [|a s IH]; simpl.
  - split; [intros _ c [] | reflexivity].
  - rewrite blank_cons, <- IH.
    destruct (rstrip s); destruct (is_space a); split;
      try discriminate; try tauto; intros [? ?]; discriminate.
Qed.

Lemma rstrip_blank (s : string) : blank (rstrip s) -> rstrip s = "".
Proof.
  induction s as [|a s IH]; simpl; [reflexivity|].
  destruct (rstrip s) as [|b r] eqn:R.
  - destruct (is_space a) eqn:E; [reflexivity|].
    intros H. apply blank_cons in H as [H _]. congruence.
  - intros H. apply blank_cons in H as [_ H]. specialize (IH H).
    discriminate.
Qed.

(** [s.strip().split()] is empty exactly when [s] is white space only. *)
Lemma strip_split_nil (s : string) :
  split_ws (strip s) = [] <-> blank s.
Proof.
  unfold split_ws, strip. rewrite split_ws_from_none_nil.
  fold (blank (rstrip (lstrip s))). split.
  - intros H. now apply lstrip_blank, rstrip_empty, rstrip_blank.
  - intros H. apply lstrip_blank, rstrip_empty in H. rewrite H.
    intros c [].
Qed.

End PyStrFacts.

(* ================================================================== *)
(** * Running the effect monad *)
(* ================================================================== *)

Section Runs.
Context {model : MusicModel}.

Lemma bind_ok {A B} (m : M A) (k : A -> M B) (w w' : World) (a : A) :
  m w = (Ok a, w') -> bind m k w = k a w'.
Proof. intros E. unfold bind. now rewrite E. Qed.

Lemma bind_raise {A B} (m : M A) (k : A -> M B) (w w' : World) (e : Exn) :
  m w = (Raise e, w') -> bind m k w = (Raise e, w').
Proof. intros E. unfold bind. now rewrite E. Qed.

Lemma call_Chord_run (name : string) (w : World) :
  call_Chord name w
  = (chord_Chord name,
     mkWorld (trace w ++ [CallChord name])%list (draws w) (cursor w)).
Proof. reflexivity. Qed.


(** ** What a run adds to the trace *)

Lemma appends_ret P {A} (a : A) : appends P (ret a).
Proof. intros w. exists []. now rewrite app_nil_r. Qed.

Lemma appends_raise P {A} (e : Exn) : appends P (@raise _ A e).
Proof. intros w. exists []. now rewrite app_nil_r. Qed.

Lemma appends_lift P {A} (r : Result A) : appends P (lift r).
Proof. intros w. exists []. now rewrite app_nil_r. Qed.

Lemma appends_emit (P : Event -> Prop) (e : Event) : P e -> appends P (emit e).
Proof. intros H w. exists [e]. split; [reflexivity | now constructor]. Qed.

Lemma appends_randint (P : Event -> Prop) (a b : Z) :
  (forall d, P (CallRandint a b d)) -> appends P (randint a b).
Proof. intros H w. eexists [_]. split; [reflexivity | now constructor]. Qed.

Lemma appends_bind P {A B} (m : M A) (k : A -> M B) :
  appends P m -> (forall a, appends P (k a)) -> appends P (bind m k).
Proof.
  intros Hm Hk w. destruct (Hm w) as (n1 & E1 & F1). unfold bind.
  destruct (m w) as [[a|e] w1]; cbn [snd] in E1.
  - destruct (Hk a w1) as (n2 & E2 & F2). exists (n1 ++ n2)%list.
    rewrite E2, E1, app_assoc. split; [reflexivity | now apply Forall_app].
  - now exists n1.
Qed.

Lemma appends_try_except P {A} (body handler : M A) :
  appends P body -> appends P handler -> appends P (try_except body handler).
Proof.
  intros Hb Hh w. destruct (Hb w) as (n1 & E1 & F1). unfold try_except.
  destruct (body w) as [[a|e] w1]; cbn [snd] in E1.
  - now exists n1.
  - destruct (Hh w1) as (n2 & E2 & F2). exists (n1 ++ n2)%list.
    rewrite E2, E1, app_assoc. split; [reflexivity | now apply Forall_app].
Qed.

Lemma appends_for_in P {A S} (l : list A) (body : A -> S -> M S) :
  (forall x s, appends P (body x s)) -> forall s, appends P (for_in l body s).
Proof.
  intros Hb. induction l as [|x l IH]; intros s; cbn [for_in].
  - apply appends_ret.
  - apply appends_bind; [apply Hb | exact IH].
Qed.

End Runs.

Create HintDb appends.
#[global] Hint Resolve appends_ret appends_raise appends_lift appends_bind
  appends_try_except appends_for_in : appends.

(* ================================================================== *)
(** * Scale Advisor: [get_scales_for_chord] *)
(* ================================================================== *)

Section ScaleAdvisor.
Context {model : MusicModel}.

(** C3.  For a chord symbol that parses to a chord with a root named [r],
    the Scale Advisor returns, first match first: the Ionian and Lydian
    pair for a major triad, else the Dorian and Aeolian pair for a minor
    triad, else the Mixolydian and Altered Dominant pair for a dominant
    seventh, else the one default entry.  The list is never empty, and it
    is the same in every world the call is made in. *)
Theorem C3_scale_rule_table
    (chord_name song_key : string) (ch : Chord) (p : Pitch) :
  chord_Chord chord_name = Ok ch ->
  root ch = Ok p ->
  let r := pitch_name p in
  let expected :=
    if isMajorTriad ch then [r ++ " Ionian (Major)"; r ++ " Lydian"]
    else if isMinorTriad ch then
      [r ++ " Dorian"; r ++ " Aeolian (Natural Minor)"]
    else if isDominantSeventh ch then
      [r ++ " Mixolydian"; r ++ " Altered Dominant"]
    else [r ++ " Major (default)"] in
  (forall w, fst (get_scales_for_chord chord_name song_key w) = Ok expected)
  /\ expected <> []
  /\ (forall w1 w2,
        fst (get_scales_for_chord chord_name song_key w1)
        = fst (get_scales_for_chord chord_name song_key w2)).
Proof.
  intros Hch Hroot r expected.
  assert (Run : forall w,
             fst (get_scales_for_chord chord_name song_key w) = Ok expected).
  { intros w. unfold get_scales_for_chord.
    rewrite (bind_ok _ _ _ _ ch) by (rewrite call_Chord_run, Hch; reflexivity).
    unfold bind at 1, lift. rewrite Hroot. subst expected r.
    destruct (isMajorTriad ch); [reflexivity|].
    destruct (isMinorTriad ch); [reflexivity|].
    destruct (isDominantSeventh ch); reflexivity. }
  split; [exact Run | split].
  - subst expected.
    destruct (isMajorTriad ch); [discriminate|].
    destruct (isMinorTriad ch); [discriminate|].
    destruct (isDominantSeventh ch); discriminate.
  - intros w1 w2. now rewrite !Run.
Qed.

(** C7.  The Scale Advisor does not read the Song Key: with any two keys
    it gives the same result, suggestions or error, and leaves the same
    world behind. *)
Theorem C7_song_key_ignored (chord_name k1 k2 : string) (w : World) :
  get_scales_for_chord chord_name k1 w = get_scales_for_chord chord_name k2 w.
Proof. reflexivity. Qed.

End ScaleAdvisor.

(** The dominant seventh of the sample model goes through the third rule. *)
Lemma C3_witness :
  (forall w, fst (get_scales_for_chord "G7" "C major" w)
             = Ok ["G Mixolydian"; "G Altered Dominant"])
  /\ ["G Mixolydian"; "G Altered Dominant"] <> []
  /\ (forall w1 w2,
        fst (get_scales_for_chord "G7" "C major" w1)
        = fst (get_scales_for_chord "G7" "C major" w2)).
Proof.
  apply (@C3_scale_rule_table Sample.model "G7" "C major"
           [67; 71; 74; 77]%Z 67%Z); reflexivity.
Defined.

(* ================================================================== *)
(** * Exercise Orchestrator: the empty progression *)
(* ================================================================== *)

Section Orchestrator.
Context {model : MusicModel}.

(** C4.  When the trimmed progression splits into no token, the
    Orchestrator returns the message "Please enter a chord progression."
    alone, not a report and MIDI pair, and the world is left as it was:
    no chord was parsed, no MIDI object built, nothing drawn. *)
Theorem C4_empty_progression
    (chord_progression song_key : string) (w : World) :
  PyStr.split_ws (PyStr.strip chord_progression) = [] ->
  generate_exercises chord_progression song_key w
  = (Ok (Message "Please enter a chord progression."), w).
Proof.
  intros H. unfold generate_exercises. rewrite H. reflexivity.
Qed.

End Orchestrator.

Lemma C4_witness :
  generate_exercises "   " "C major" (Sample.fresh (fun _ => 0))
  = (Ok (Message "Please enter a chord progression."),
     Sample.fresh (fun _ => 0)).
Proof.
  apply (@C4_empty_progression Sample.model). reflexivity.
Defined.

(* ================================================================== *)
(** * Melody Sketcher: [generate_melody_idea] *)
(* ================================================================== *)

Section MelodySketcher.
Context {model : MusicModel}.

Lemma call_Key_run (name : string) (w : World) :
  call_Key name w
  = (key_Key name,
     mkWorld (trace w ++ [CallKey name])%list (draws w) (cursor w)).
Proof. reflexivity. Qed.

Lemma call_derive_run (t : ScaleTemplate) (tonic : Pitch) (w : World) :
  call_derive t tonic w
  = (scale_derive t tonic,
     mkWorld (trace w ++ [CallDerive t tonic])%list (draws w) (cursor w)).
Proof. reflexivity. Qed.

(** A draw of [randint a b] lies between [a] and [b]. *)
Lemma randint_range (a b : Z) (w : World) :
  (a <= b)%Z ->
  exists d, (a <= d <= b)%Z /\
    randint a b w
    = (Ok d, mkWorld (trace w ++ [CallRandint a b d])%list (draws w)
                     (S (cursor w))).
Proof.
  intros Hab. eexists. split; [|reflexivity].
  pose proof (Z.mod_pos_bound (Z.of_nat (draws w (cursor w))) (b - a + 1)).
  lia.
Qed.

(** Every value between [a] and [b] is the draw of some random source. *)
Lemma randint_onto (a b d : Z) (w : World) :
  (a <= d <= b)%Z ->
  exists raw,
    fst (randint a b (mkWorld (trace w) raw (cursor w))) = Ok d.
Proof.
  intros H. exists (fun _ => Z.to_nat (d - a)). unfold randint; cbn.
  rewrite Z2Nat.id by lia. rewrite Z.mod_small by lia. f_equal. lia.
Qed.

(** The calls of one turn of the melody loop keep to the template of the
    key. *)
Lemma melody_step_appends (song_key ch : string) (acc : list string) :
  appends (derives_with (scale_template song_key))
          (melody_step song_key ch acc).
Proof.
  unfold melody_step, call_Chord, call_derive.
  repeat (apply appends_bind; [|intros ?]);
    auto using appends_emit, appends_randint with appends;
    try (apply appends_emit; exact I);
    try (apply appends_randint; intros; exact I).
  apply appends_emit. reflexivity.
Qed.

(** C1 (as the code has it).  Whatever the progression and the Song Key,
    every scale the Melody Sketcher derives uses the major template when
    the lowered key contains "major" and the minor template otherwise: the
    calls the run appends to the trace all satisfy it. *)
Theorem C1_template_follows_major
    (chords : list string) (song_key : string) (w : World) :
  exists new,
    trace (snd (generate_melody_idea chords song_key w))
    = (trace w ++ new)%list
    /\ Forall (derives_with
                 (if PyStr.contains "major" (PyStr.lower song_key)
                  then MajorScale else MinorScale)) new.
Proof.
  revert w. change (appends (derives_with (scale_template song_key))
                            (generate_melody_idea chords song_key)).
  unfold generate_melody_idea, melody_body, call_Key.
  apply appends_try_except; [|apply appends_ret].
  apply appends_bind.
  - apply appends_bind; [apply appends_emit; exact I | intros; apply appends_lift].
  - intros _. apply appends_bind; [|intros; apply appends_ret].
    apply appends_for_in. intros; apply melody_step_appends.
Qed.




End MelodySketcher.

(** With the key "C", which the sample model parses, the sketcher derives
    a minor scale over the chord C, where the specification's wording
    gives the major template. *)
Lemma C1_counterexample :
  spec_scale_template "C" = MajorScale
  /\ In (CallDerive MinorScale 60%Z)
        (trace (snd (generate_melody_idea ["C"] "C"
                       (Sample.fresh (fun _ => 0)))))
  /\ ~ Forall (derives_with (spec_scale_template "C"))
         (trace (snd (generate_melody_idea ["C"] "C"
                        (Sample.fresh (fun _ => 0))))).
Proof.
  split; [reflexivity|]. split.
  - cbn. right; right; left. reflexivity.
  - intros H. rewrite Forall_forall in H.
    specialize (H (CallDerive MinorScale 60%Z)).
    cbn in H. discriminate H. right; right; left. reflexivity.
Qed.




(* ================================================================== *)
(** * Arpeggio Formatter: [generate_arpeggio_pattern] *)
(* ================================================================== *)

Section ArpeggioFormatter.
Context {model : MusicModel}.

(** The output for a chord that parses and has a first note. *)
Lemma arpeggio_run (chord_name : string) (ch : Chord) (first : Note)
    (rest : list Note) (w : World) :
  chord_Chord chord_name = Ok ch ->
  notes ch = first :: rest ->
  fst (generate_arpeggio_pattern chord_name w)
  = Ok (PyStr.join " -> " (ascending ch first ++ rev (ascending ch first))%list).
Proof.
  intros Hch Hn. unfold generate_arpeggio_pattern.
  rewrite (bind_ok _ _ _ _ ch) by (rewrite call_Chord_run, Hch; reflexivity).
  unfold arpeggio_of, ascending. rewrite Hn. reflexivity.
Qed.

(** Splitting that output on the arrow gives back the list it was joined
    from. *)
Lemma arpeggio_tokens (ch : Chord) (first : Note) :
  Forall spaceless (ascending ch first) ->
  PyStr.split " -> "
    (PyStr.join " -> " (ascending ch first ++ rev (ascending ch first))%list)
  = (ascending ch first ++ rev (ascending ch first))%list.
Proof.
  intros H. apply (PyStrFacts.split_join " "%char "-> ").
  - unfold ascending. intros E. apply app_eq_nil in E as [E _].
    apply app_eq_nil in E as [_ E]. discriminate.
  - apply Forall_app. split; [exact H | now apply Forall_rev].
Qed.

Lemma ascending_length (ch : Chord) (first : Note) :
  List.length (ascending ch first) = S (List.length (notes ch)).
Proof. unfold ascending. rewrite length_app, length_map. simpl. lia. Qed.

(** C2 (as the code has it).  For a chord symbol that parses to a chord
    with a first note, the tokens of the output are the ascending half,
    the notes in order then the first note an octave up, followed by its
    whole reverse, the octave note included: that top token stands at
    both middle places, [n] and [n+1] for a chord of [n] notes, and so is
    there twice at least. *)
Theorem C2_arpeggio_up_then_whole_reverse
    (chord_name : string) (ch : Chord) (first : Note) (rest : list Note)
    (w : World) :
  chord_Chord chord_name = Ok ch ->
  notes ch = first :: rest ->
  Forall spaceless (ascending ch first) ->
  let top := note_nameWithOctave (note_transpose first 12) in
  let up := (map note_nameWithOctave (notes ch) ++ [top])%list in
  let n := List.length (notes ch) in
  exists s,
    fst (generate_arpeggio_pattern chord_name w) = Ok s
    /\ PyStr.split " -> " s = (up ++ rev up)%list
    /\ nth_error (PyStr.split " -> " s) n = Some top
    /\ nth_error (PyStr.split " -> " s) (S n) = Some top
    /\ (2 <= count_occ string_dec (PyStr.split " -> " s) top)%nat.
Proof.
  intros Hch Hn Hsp top up n.
  eexists. split; [exact (arpeggio_run _ _ _ _ w Hch Hn)|].
  rewrite (arpeggio_tokens _ _ Hsp).
  change (ascending ch first) with up.
  assert (Hlen : List.length (map note_nameWithOctave (notes ch)) = n)
    by apply length_map.
  assert (Hrev : rev up = top :: rev (map note_nameWithOctave (notes ch)))
    by (unfold up; now rewrite rev_app_distr).
  assert (Hup : List.length up = S n)
    by (unfold up; rewrite length_app, Hlen; simpl; lia).
  split; [reflexivity|]. split; [|split].
  - rewrite nth_error_app1 by lia.
    unfold up. rewrite nth_error_app2 by lia.
    rewrite Hlen, Nat.sub_diag. reflexivity.
  - rewrite nth_error_app2 by lia.
    rewrite Hup, Nat.sub_diag, Hrev. reflexivity.
  - rewrite count_occ_app, count_occ_rev. unfold up at 1 2.
    rewrite count_occ_app. simpl.
    destruct (string_dec top top) as [_|N]; [lia | now elim N].
Qed.

(** C9.  For a chord symbol that parses to a chord of [n] notes, with a
    first note, splitting the output on the arrow gives [2 * (n + 1)]
    tokens, a list equal to its own reverse, in which every token occurs
    an even number of times. *)
Theorem C9_even_palindrome
    (chord_name : string) (ch : Chord) (first : Note) (rest : list Note)
    (w : World) :
  chord_Chord chord_name = Ok ch ->
  notes ch = first :: rest ->
  Forall spaceless (ascending ch first) ->
  exists s,
    fst (generate_arpeggio_pattern chord_name w) = Ok s
    /\ List.length (PyStr.split " -> " s) = (2 * (List.length (notes ch) + 1))%nat
    /\ rev (PyStr.split " -> " s) = PyStr.split " -> " s
    /\ (forall t, Nat.Even (count_occ string_dec (PyStr.split " -> " s) t)).
Proof.
  intros Hch Hn Hsp.
  eexists. split; [exact (arpeggio_run _ _ _ _ w Hch Hn)|].
  rewrite (arpeggio_tokens _ _ Hsp). split; [|split].
  - rewrite length_app, length_rev, ascending_length. lia.
  - rewrite rev_app_distr, rev_involutive. reflexivity.
  - intros t. rewrite count_occ_app, count_occ_rev.
    exists (count_occ string_dec (ascending ch first) t). lia.
Qed.

End ArpeggioFormatter.

(** Over the chord C of the sample model the top note C5 is there twice,
    side by side, where the specification's reading has it once. *)
Lemma C2_counterexample :
  let out := "C4 -> E4 -> G4 -> C5 -> C5 -> G4 -> E4 -> C4" in
  fst (generate_arpeggio_pattern "C" (Sample.fresh (fun _ => 0))) = Ok out
  /\ PyStr.split " -> " out
     <> spec_arpeggio_tokens ["C4"; "E4"; "G4"; "C5"]
  /\ count_occ string_dec (PyStr.split " -> " out) "C5" = 2%nat.
Proof.
  cbv zeta. split; [reflexivity|]. split; [|reflexivity].
  intros E. apply (f_equal (@List.length string)) in E.
  vm_compute in E. discriminate E.
Qed.

Lemma C2_witness :
  let top := "C5" in
  let up := ["C4"; "E4"; "G4"; "C5"] in
  exists s,
    fst (generate_arpeggio_pattern "C" (Sample.fresh (fun _ => 0))) = Ok s
    /\ PyStr.split " -> " s = (up ++ rev up)%list
    /\ nth_error (PyStr.split " -> " s) 3 = Some top
    /\ nth_error (PyStr.split " -> " s) 4 = Some top
    /\ (2 <= count_occ string_dec (PyStr.split " -> " s) top)%nat.
Proof.
  apply (@C2_arpeggio_up_then_whole_reverse Sample.model "C"
           [60; 64; 67]%Z 60%Z [64; 67]%Z).
  - reflexivity.
  - reflexivity.
  - repeat constructor.
Defined.

Lemma C9_witness :
  exists s,
    fst (generate_arpeggio_pattern "G7" (Sample.fresh (fun _ => 0))) = Ok s
    /\ List.length (PyStr.split " -> " s) = (2 * (4 + 1))%nat
    /\ rev (PyStr.split " -> " s) = PyStr.split " -> " s
    /\ (forall t, Nat.Even (count_occ string_dec (PyStr.split " -> " s) t)).
Proof.
  apply (@C9_even_palindrome Sample.model "G7"
           [67; 71; 74; 77]%Z 67%Z [71; 74; 77]%Z).
  - reflexivity.
  - reflexivity.
  - repeat constructor.
Defined.

(** In the model where "NC" parses to a chord without notes, the
    formatter gives no output on it: [ch.notes[0]] raises, and there is
    no list of two tokens. *)
Lemma C9_counterexample :
  @chord_Chord Sparse.model "NC" = Ok []
  /\ List.length (@notes Sparse.model []) = 0%nat
  /\ fst (@generate_arpeggio_pattern Sparse.model "NC"
            (Sparse.fresh (fun _ => 0)))
     = Raise IndexError
  /\ ~ exists s,
        fst (@generate_arpeggio_pattern Sparse.model "NC"
               (Sparse.fresh (fun _ => 0))) = Ok s
        /\ List.length (PyStr.split " -> " s) = (2 * (0 + 1))%nat.
Proof.
  repeat split. intros (s & H & _). discriminate H.
Qed.

(* ================================================================== *)
(** * MIDI Exporter: [create_midi_exercise] *)
(* ================================================================== *)

Section MidiExporter.
Context {model : MusicModel}.

(** The inner loop adds the chord's notes one unit apart and leaves the
    cursor after the last of them. *)
Lemma fold_add_pitch (ps : list Pitch) (midi : MIDIFile) (time : Z) :
  fold_left (add_pitch 0 0 1 100) ps (midi, time)
  = (mkMIDIFile (numTracks midi) (tempo_events midi)
                (note_events midi ++ notes_from time ps)%list,
     (time + Z.of_nat (List.length ps))%Z).
Proof.
  revert midi time; induction ps as [|p ps IH]; intros midi time.
  - cbn. rewrite app_nil_r, Z.add_0_r. now destruct midi.
  - cbn [fold_left add_pitch]. rewrite IH. cbn [numTracks tempo_events
      note_events addNote notes_from List.length].
    rewrite <- app_assoc. f_equal. lia.
Qed.

(** The outer loop, over chords that all parse, adds their blocks. *)
Lemma for_in_midi_step (chords : list string) (parsed : list Chord) :
  map chord_Chord chords = map Ok parsed ->
  forall (midi : MIDIFile) (time : Z) (w : World),
  exists time',
    fst (for_in chords (midi_step 0 0 1 100) (midi, time) w)
    = Ok (mkMIDIFile (numTracks midi) (tempo_events midi)
                     (note_events midi
                      ++ List.concat (blocks_from time parsed))%list,
          time').
Proof.
  revert parsed; induction chords as [|c chords IH]; intros parsed H.
  - destruct parsed; [|discriminate]. intros midi time w. exists time.
    cbn. rewrite app_nil_r. now destruct midi.
  - destruct parsed as [|ch parsed]; [discriminate|].
    injection H as Hc Hrest. intros midi time w.
    cbn [for_in]. unfold midi_step at 1.
    erewrite bind_ok; cycle 1.
    { erewrite bind_ok by (rewrite call_Chord_run, Hc; reflexivity).
      rewrite fold_add_pitch. reflexivity. }
    destruct (IH parsed Hrest
                (mkMIDIFile (numTracks midi) (tempo_events midi)
                   (note_events midi ++ notes_from time (pitches ch))%list)
                (time + Z.of_nat (List.length (pitches ch)) + 1 * 2)%Z
                (mkWorld (trace w ++ [CallChord c])%list (draws w) (cursor w)))
      as [time' E].
    exists time'. rewrite E. cbn [numTracks tempo_events note_events
      blocks_from List.concat].
    rewrite <- app_assoc. reflexivity.
Qed.

(** ** The blocks *)

Lemma notes_from_length (time : Z) (ps : list Pitch) :
  List.length (notes_from time ps) = List.length ps.
Proof.
  revert time; induction ps as [|p ps IH]; intros time; cbn;
    [reflexivity | now rewrite IH].
Qed.

Lemma notes_from_pitches (time : Z) (ps : list Pitch) :
  map note_pitch (notes_from time ps) = map pitch_midi ps.
Proof.
  revert time; induction ps as [|p ps IH]; intros time; cbn;
    [reflexivity | now rewrite IH].
Qed.

(** The onsets of a block are [time], [time + 1], ... *)
Lemma notes_from_nth (ps : list Pitch) (time : Z) (k : nat) (e : NoteEvent) :
  nth_error (notes_from time ps) k = Some e ->
  note_time e = (time + Z.of_nat k)%Z.
Proof.
  revert time k; induction ps as [|p ps IH]; intros time k H.
  - destruct k; discriminate.
  - destruct k as [|k]; cbn in H.
    + injection H as <-. cbn. lia.
    + rewrite (IH _ _ H). lia.
Qed.

Lemma notes_from_fixed (time : Z) (ps : list Pitch) :
  Forall (fun e => note_duration e = 1%Z /\ note_volume e = 100%Z
                   /\ note_channel e = 0%Z /\ note_track e = 0%Z)
         (notes_from time ps).
Proof.
  revert time; induction ps as [|p ps IH]; intros time; cbn;
    constructor; [now cbn | apply IH].
Qed.

(** The onsets of the blocks from [time] on start at [time] or later and
    grow strictly. *)
Lemma notes_from_sorted (time bound : Z) (ps : list Pitch) (later : list Z) :
  (time + Z.of_nat (List.length ps) <= bound)%Z ->
  Forall (fun t => (bound <= t)%Z) later ->
  StronglySorted Z.lt later ->
  StronglySorted Z.lt (map note_time (notes_from time ps) ++ later)%list
  /\ Forall (fun t => (time <= t)%Z)
            (map note_time (notes_from time ps) ++ later)%list.
Proof.
  revert time; induction ps as [|p ps IH]; intros time Hb Hl Hs.
  - cbn in *. split; [exact Hs|].
    eapply Forall_impl; [|exact Hl]. cbn; intros; lia.
  - cbn [List.length] in Hb.
    destruct (IH (time + 1)%Z) as [S1 F1]; [lia | assumption..|].
    cbn [notes_from map app note_time]. split.
    + constructor; [exact S1|].
      eapply Forall_impl; [|exact F1]. cbn; intros; lia.
    + constructor; [lia|].
      eapply Forall_impl; [|exact F1]. cbn; intros; lia.
Qed.

Lemma blocks_from_sorted (chs : list Chord) (time : Z) :
  StronglySorted Z.lt (map note_time (List.concat (blocks_from time chs)))
  /\ Forall (fun t => (time <= t)%Z)
            (map note_time (List.concat (blocks_from time chs))).
Proof.
  revert time; induction chs as [|ch chs IH]; intros time.
  - cbn. split; constructor.
  - cbn [blocks_from List.concat]. rewrite map_app.
    destruct (IH (time + Z.of_nat (List.length (pitches ch)) + 2)%Z)
      as [S1 F1].
    apply notes_from_sorted
      with (bound := (time + Z.of_nat (List.length (pitches ch)) + 2)%Z);
      [lia | assumption..].
Qed.

Lemma blocks_from_length (chs : list Chord) (time : Z) :
  List.length (List.concat (blocks_from time chs))
  = list_sum (map (fun ch => List.length (pitches ch)) chs).
Proof.
  revert time; induction chs as [|ch chs IH]; intros time; cbn;
    [reflexivity|].
  now rewrite length_app, notes_from_length, IH.
Qed.

Lemma blocks_from_pitches (chs : list Chord) (time : Z) :
  Forall2 (fun ch block => map note_pitch block = map pitch_midi (pitches ch))
          chs (blocks_from time chs).
Proof.
  revert time; induction chs as [|ch chs IH]; intros time; cbn;
    constructor; [apply notes_from_pitches | apply IH].
Qed.

Lemma blocks_from_fixed (chs : list Chord) (time : Z) :
  Forall (fun e => note_duration e = 1%Z /\ note_volume e = 100%Z
                   /\ note_channel e = 0%Z /\ note_track e = 0%Z)
         (List.concat (blocks_from time chs)).
Proof.
  revert time; induction chs as [|ch chs IH]; intros time; cbn;
    [constructor|].
  apply Forall_app. split; [apply notes_from_fixed | apply IH].
Qed.

(** From the last note of a block to the first note of the next: one unit
    for the note and two of pause. *)
Lemma blocks_from_gap (chs : list Chord) (time : Z) (i : nat)
    (before after : list NoteEvent) (last first : NoteEvent) :
  nth_error (blocks_from time chs) i = Some (before ++ [last])%list ->
  nth_error (blocks_from time chs) (S i) = Some (first :: after) ->
  note_time first = (note_time last + 3)%Z.
Proof.
  revert time i; induction chs as [|ch chs IH]; intros time i H1 H2.
  - destruct i; discriminate.
  - destruct i as [|i]; [|exact (IH _ _ H1 H2)].
    cbn in H1. injection H1 as H1.
    destruct chs as [|ch2 chs]; [discriminate|].
    cbn in H2. injection H2 as H2.
    assert (L : List.length (pitches ch) = S (List.length before)).
    { rewrite <- (notes_from_length time), H1, length_app. cbn. lia. }
    assert (T1 : note_time last = (time + Z.of_nat (List.length before))%Z).
    { apply (notes_from_nth (pitches ch)). rewrite H1.
      rewrite nth_error_app2, Nat.sub_diag by lia. reflexivity. }
    assert (T2 : note_time first
                 = (time + Z.of_nat (List.length (pitches ch)) + 2 + Z.of_nat 0)%Z).
    { apply (notes_from_nth (pitches ch2)). rewrite H2. reflexivity. }
    lia.
Qed.

Lemma strictly_sorted_le (l : list Z) :
  StronglySorted Z.lt l -> StronglySorted Z.le l.
Proof.
  induction 1 as [|t l _ IH F]; constructor; [exact IH|].
  eapply Forall_impl; [|exact F]. cbn; intros; lia.
Qed.

(** C6.  For a progression whose chords all parse, the exporter returns a
    stream at position 0 holding one track with the tempo 120 at time 0
    and one note per chord pitch, chord by chord in order: their number is
    the sum of the chords' pitch counts, their onsets never decrease (they
    grow strictly), the first note of a chord starts 3 units after the
    start of the last note of the chord before it, and every note has
    duration 1, velocity 100, channel 0 and track 0. *)
Theorem C6_midi_timing
    (chords : list string) (parsed : list Chord) (w : World) :
  map chord_Chord chords = map Ok parsed ->
  exists (midi : MIDIFile) (blocks : list (list NoteEvent)),
    fst (create_midi_exercise chords w)
    = Ok (mkBytesIO (Some midi) (Offset 0))
    /\ numTracks midi = 1%Z
    /\ tempo_events midi = [mkTempo 0 0 120]
    /\ note_events midi = List.concat blocks
    /\ Forall2 (fun ch block =>
                  map note_pitch block = map pitch_midi (pitches ch))
               parsed blocks
    /\ List.length (note_events midi)
       = list_sum (map (fun ch => List.length (pitches ch)) parsed)
    /\ StronglySorted Z.le (map note_time (note_events midi))
    /\ StronglySorted Z.lt (map note_time (note_events midi))
    /\ (forall i before last first after,
          nth_error blocks i = Some (before ++ [last])%list ->
          nth_error blocks (S i) = Some (first :: after) ->
          note_time first = (note_time last + 3)%Z)
    /\ Forall (fun e => note_duration e = 1%Z /\ note_volume e = 100%Z
                        /\ note_channel e = 0%Z /\ note_track e = 0%Z)
              (note_events midi).
Proof.
  intros H.
  destruct (for_in_midi_step chords parsed H
              (addTempo (mkMIDIFile 1 [] []) 0 0 120) 0%Z
              (mkWorld (trace w ++ [CallMIDIFile 1])%list (draws w) (cursor w)))
    as [time' E].
  exists (mkMIDIFile 1 [mkTempo 0 0 120]
                     (List.concat (blocks_from 0 parsed))),
         (blocks_from 0 parsed).
  cbn [numTracks tempo_events note_events].
  split; [|repeat split].
  - revert E.
    unfold create_midi_exercise, midi_of, call_MIDIFile, bind, emit, ret.
    cbn beta iota zeta.
    destruct (for_in chords _ _ _) as [res w2]. cbn [fst]. intros ->.
    reflexivity.
  - apply blocks_from_pitches.
  - apply blocks_from_length.
  - apply strictly_sorted_le, blocks_from_sorted.
  - apply blocks_from_sorted.
  - intros i before last first after. apply blocks_from_gap.
  - apply blocks_from_fixed.
Qed.

End MidiExporter.

(** The chords C and G7 of the sample model: seven notes, the fourth one
    three units after the third. *)
Lemma C6_witness :
  exists (midi : MIDIFile) (blocks : list (list NoteEvent)),
    fst (create_midi_exercise ["C"; "G7"] (Sample.fresh (fun _ => 0)))
    = Ok (mkBytesIO (Some midi) (Offset 0))
    /\ numTracks midi = 1%Z
    /\ tempo_events midi = [mkTempo 0 0 120]
    /\ note_events midi = List.concat blocks
    /\ Forall2 (fun (ch : list Z) block =>
                  map note_pitch block = map (fun p : Z => p) ch)
               [[60; 64; 67]; [67; 71; 74; 77]]%Z blocks
    /\ List.length (note_events midi) = 7%nat
    /\ StronglySorted Z.le (map note_time (note_events midi))
    /\ StronglySorted Z.lt (map note_time (note_events midi))
    /\ (forall i before last first after,
          nth_error blocks i = Some (before ++ [last])%list ->
          nth_error blocks (S i) = Some (first :: after) ->
          note_time first = (note_time last + 3)%Z)
    /\ Forall (fun e => note_duration e = 1%Z /\ note_volume e = 100%Z
                        /\ note_channel e = 0%Z /\ note_track e = 0%Z)
              (note_events midi).
Proof.
  exact (@C6_midi_timing Sample.model ["C"; "G7"]
           [[60; 64; 67]; [67; 71; 74; 77]]%Z
           (Sample.fresh (fun _ => 0)) eq_refl).
Defined.

(* ================================================================== *)
(** * Evaluations *)
(* ================================================================== *)

Example split_ws_strip_run :
  PyStr.split_ws (PyStr.strip "  C Am   F G ") = ["C"; "Am"; "F"; "G"].
Proof. reflexivity. Qed.

Example split_arrow_run :
  PyStr.split " -> " "C4 -> E4 -> -> G4" = ["C4"; "E4"; "-> G4"].
Proof. reflexivity. Qed.

Example slice_run : PyStr.slice [1; 2; 3; 4; 5; 6; 7; 8]%Z 4 5 = [5%Z].
Proof. reflexivity. Qed.

Example slice_negative_run :
  PyStr.slice [1; 2; 3; 4; 5]%Z (-2) 9 = [4; 5]%Z.
Proof. reflexivity. Qed.

Example template_of_C_major : scale_template "C MaJoR" = MajorScale.
Proof. reflexivity. Qed.

Example template_of_A_minor : scale_template "A minor" = MinorScale.
Proof. reflexivity. Qed.

Example template_of_bare_C : scale_template "C" = MinorScale.
Proof. reflexivity. Qed.

Example scales_of_Am :
  fst (get_scales_for_chord "Am" "C major" (Sample.fresh (fun _ => 0)))
  = Ok ["A Dorian"; "A Aeolian (Natural Minor)"].
Proof. reflexivity. Qed.

Example scales_of_Csus4 :
  fst (get_scales_for_chord "Csus4" "C major" (Sample.fresh (fun _ => 0)))
  = Ok ["C Major (default)"].
Proof. reflexivity. Qed.

Example arpeggio_of_C :
  fst (generate_arpeggio_pattern "C" (Sample.fresh (fun _ => 0)))
  = Ok "C4 -> E4 -> G4 -> C5 -> C5 -> G4 -> E4 -> C4".
Proof. reflexivity. Qed.

Example melody_over_C_G :
  fst (generate_melody_idea ["C"; "G"] "C major"
         (Sample.fresh (Sample.two_draws 4 0)))
  = Ok "G4 G4 A4 B4 C5 D5".
Proof. reflexivity. Qed.

Example melody_with_bad_key :
  fst (generate_melody_idea ["C"; "G"] "?" (Sample.fresh (fun _ => 0)))
  = Ok melody_fallback.
Proof. reflexivity. Qed.

Example exercises_raise_on_bad_chord :
  fst (generate_exercises "C H" "C major" (Sample.fresh (fun _ => 0)))
  = Raise (LibraryError "H").
Proof. reflexivity. Qed.

Section MessageOnly.
Context {model : MusicModel}.

(** X12.  The Orchestrator returns the message exactly for the
    progressions of white space only, the empty one among them; on any
    other progression it returns a report or raises, never the message. *)
Lemma message_iff_blank (chord_progression song_key : string) (w : World) :
  PyStr.blank chord_progression
  <-> fst (generate_exercises chord_progression song_key w)
      = Ok (Message "Please enter a chord progression.").
Proof.
  rewrite <- (PyStrFacts.strip_split_nil chord_progression).
  unfold generate_exercises.
  destruct (PyStr.split_ws (PyStr.strip chord_progression)) as [|t l].
  - split; reflexivity.
  - split; [discriminate|]. intros H. exfalso. revert H.
    unfold bind.
    repeat match goal with
           | |- context [match ?m ?w with pair _ _ => _ end] =>
               destruct (m w) as [[?|?] ?]; cbn [fst]
           end; discriminate.
Qed.

End MessageOnly.

(* ================================================================== *)
(** * More on runs: loops that end, loops that stop *)
(* ================================================================== *)

Section Loops.
Context {model : MusicModel}.

Lemma bind_fst_ok {A B} (m : M A) (k : A -> M B) (w : World) (a : A) :
  fst (m w) = Ok a -> exists w', bind m k w = k a w'.
Proof.
  unfold bind. destruct (m w) as [[a'|e] w']; cbn [fst]; intros E;
    [injection E as -> | discriminate]. now exists w'.
Qed.

Lemma run_ok {A} (m : M A) (w : World) (a : A) :
  fst (m w) = Ok a -> exists w', m w = (Ok a, w').
Proof.
  destruct (m w) as [r w']; cbn [fst]; intros ->. now exists w'.
Qed.

Lemma bind_fst_raise {A B} (m : M A) (k : A -> M B) (w : World) (e : Exn) :
  fst (m w) = Raise e -> fst (bind m k w) = Raise e.
Proof.
  unfold bind. destruct (m w) as [[a'|e'] w']; cbn [fst]; intros E;
    [discriminate | now injection E as ->].
Qed.

(** A loop whose body computes [f] on the items of the list folds [f]. *)
Lemma for_in_fold {A S} (body : A -> S -> M S) (f : S -> A -> S)
    (l : list A) :
  (forall x s w, In x l -> fst (body x s w) = Ok (f s x)) ->
  forall s w, fst (for_in l body s w) = Ok (fold_left f l s).
Proof.
  induction l as [|x l IH]; intros H s w; [reflexivity|].
  cbn [for_in fold_left].
  destruct (bind_fst_ok (body x s) (for_in l body) w (f s x)) as [w' ->].
  - apply H. now left.
  - apply IH. intros y s' w0 Hy. apply H. now right.
Qed.

(** A loop stops at the first item whose body raises, with its error,
    when the items before it go through; if each turn appends the call
    [ev x] and no other, the trace has the calls up to that item. *)
Lemma for_in_stops {A S} (body : A -> S -> M S) (ev : A -> Event)
    (pre post : list A) (x : A) (e : Exn) :
  (forall y s w, In y pre -> exists s', fst (body y s w) = Ok s') ->
  (forall s w, fst (body x s w) = Raise e) ->
  (forall y s w, trace (snd (body y s w)) = (trace w ++ [ev y])%list) ->
  forall s w,
    fst (for_in (pre ++ x :: post) body s w) = Raise e
    /\ trace (snd (for_in (pre ++ x :: post) body s w))
       = (trace w ++ map ev (pre ++ [x]))%list.
Proof.
  intros Hpre Hx Hev. induction pre as [|y pre IH]; intros s w.
  - cbn [app for_in map]. unfold bind.
    specialize (Hx s w). specialize (Hev x s w).
    destruct (body x s w) as [[s'|e'] w']; cbn [fst snd] in *;
      [discriminate|]. now split.
  - cbn [app for_in map]. unfold bind.
    destruct (Hpre y s w (or_introl eq_refl)) as [s' Hy].
    specialize (Hev y s w).
    destruct (body y s w) as [[s''|e'] w']; cbn [fst snd] in *;
      [|discriminate].
    destruct (IH (fun z s0 w0 Hz => Hpre z s0 w0 (or_intror Hz)) s'' w')
      as [R T].
    split; [exact R|]. rewrite T, Hev, <- app_assoc. reflexivity.
Qed.

Lemma fold_left_append {A} (g : A -> string) (l : list A) (out : string) :
  fold_left (fun o x => o ++ g x) l out = out ++ flatten (map g l).
Proof.
  revert out; induction l as [|x l IH]; intros out; cbn.
  - now rewrite PyStrFacts.append_empty_r.
  - rewrite IH, PyStrFacts.append_assoc. reflexivity.
Qed.

(** The chord symbols that all parse parse to a list of chords. *)
Lemma parsed_list (chords : list string) :
  (forall ch, In ch chords -> exists c, chord_Chord ch = Ok c) ->
  exists parsed, map chord_Chord chords = map Ok parsed.
Proof.
  induction chords as [|ch chords IH]; intros H; [now exists []|].
  destruct (H ch (or_introl eq_refl)) as [c Hc].
  destruct IH as [parsed Hp]; [intros; apply H; now right|].
  exists (c :: parsed). cbn. now rewrite Hc, Hp.
Qed.

End Loops.

(* ================================================================== *)
(** * Exercise Orchestrator: failures and the report *)
(* ================================================================== *)

Section Report.
Context {model : MusicModel}.

Lemma scales_run (chord_name song_key : string) (w : World) :
  get_scales_for_chord chord_name song_key w
  = (match chord_Chord chord_name with
     | Ok ch =>
         match root ch with
         | Ok p =>
             let r := pitch_name p in
             Ok (if isMajorTriad ch then
                   [r ++ " Ionian (Major)"; r ++ " Lydian"]
                 else if isMinorTriad ch then
                   [r ++ " Dorian"; r ++ " Aeolian (Natural Minor)"]
                 else if isDominantSeventh ch then
                   [r ++ " Mixolydian"; r ++ " Altered Dominant"]
                 else [r ++ " Major (default)"])
         | Raise e => Raise e
         end
     | Raise e => Raise e
     end,
     mkWorld (trace w ++ [CallChord chord_name])%list (draws w) (cursor w)).
Proof.
  unfold get_scales_for_chord, bind. rewrite call_Chord_run.
  destruct (chord_Chord chord_name) as [ch|e]; [|reflexivity].
  unfold lift. destruct (root ch) as [p|e]; [|reflexivity].
  destruct (isMajorTriad ch); [reflexivity|].
  destruct (isMinorTriad ch); [reflexivity|].
  destruct (isDominantSeventh ch); reflexivity.
Qed.

Lemma scales_step_run (song_key ch out : string) (w : World) :
  scales_step song_key ch out w
  = (match fst (get_scales_for_chord ch song_key w) with
     | Ok scales =>
         Ok (out ++ "- Over " ++ ch ++ ": " ++ PyStr.join ", " scales ++ nl)
     | Raise e => Raise e
     end,
     mkWorld (trace w ++ [CallChord ch])%list (draws w) (cursor w)).
Proof.
  unfold scales_step, bind. rewrite scales_run. cbn [fst].
  destruct (chord_Chord ch) as [c|e]; [|reflexivity].
  destruct (root c); reflexivity.
Qed.

(** X1.  When the first tokens of the progression parse to chords with
    a root and the next one does not parse, the Orchestrator raises that
    token's error in the scales section: the calls made are the chord
    constructions up to that token, one each, and nothing else: no key is
    parsed, no number drawn, no MIDI file built. *)
Theorem first_bad_chord_stops_all
    (chord_progression song_key : string) (pre post : list string)
    (ch : string) (e : Exn) (w : World) :
  PyStr.split_ws (PyStr.strip chord_progression) = (pre ++ ch :: post)%list ->
  Forall (fun name => exists c p, chord_Chord name = Ok c /\ root c = Ok p)
         pre ->
  chord_Chord ch = Raise e ->
  fst (generate_exercises chord_progression song_key w) = Raise e
  /\ trace (snd (generate_exercises chord_progression song_key w))
     = (trace w ++ map CallChord (pre ++ [ch]))%list.
Proof.
  intros Htok Hpre Hch. unfold generate_exercises. rewrite Htok. clear Htok.
  remember (pre ++ ch :: post)%list as chords eqn:E.
  destruct chords as [|t l]; [destruct pre; discriminate|].
  cbv beta iota. rewrite E. clear E t l.
  match goal with
  | |- context [for_in _ (scales_step song_key) ?o] => set (out := o)
  end.
  destruct (for_in_stops (scales_step song_key) CallChord pre post ch e)
    with (s := out) (w := w) as [R T].
  - intros y s w0 Hy. rewrite Forall_forall in Hpre.
    destruct (Hpre y Hy) as (c & p & Hc & Hp).
    rewrite scales_step_run, scales_run, Hc, Hp. cbn. eauto.
  - intros s w0. rewrite scales_step_run, scales_run, Hch. reflexivity.
  - intros y s w0. rewrite scales_step_run. reflexivity.
  - destruct (for_in (pre ++ ch :: post) (scales_step song_key) out w)
      as [[o|e'] w'] eqn:F; cbn [fst snd] in R, T; [discriminate|].
    injection R as ->.
    rewrite (bind_raise _ _ _ _ _ F). cbn [fst snd]. split;
      [reflexivity | assumption].
Qed.

End Report.

Lemma first_bad_chord_stops_all_witness :
  fst (generate_exercises "C H G" "C major" (Sample.fresh (fun _ => 0)))
  = Raise (LibraryError "H")
  /\ trace (snd (generate_exercises "C H G" "C major"
                   (Sample.fresh (fun _ => 0))))
     = ([] ++ map CallChord (["C"] ++ ["H"]))%list.
Proof.
  apply (@first_bad_chord_stops_all Sample.model "C H G" "C major"
           ["C"] ["G"] "H" (LibraryError "H")).
  - reflexivity.
  - repeat constructor. exists [60; 64; 67]%Z, 60%Z. split; reflexivity.
  - reflexivity.
Defined.

Section Assembly.
Context {model : MusicModel}.

Lemma scales_ok_parses (ch song_key : string) (w : World) (l : list string) :
  fst (get_scales_for_chord ch song_key w) = Ok l ->
  exists c, chord_Chord ch = Ok c.
Proof.
  rewrite scales_run. cbn [fst].
  destruct (chord_Chord ch) as [c|e]; [eauto | discriminate].
Qed.

(** The melody is a string in every case, the fallback under a key that
    does not parse. *)
Lemma melody_idea_total (chords : list string) (song_key : string)
    (w : World) :
  exists s,
    fst (generate_melody_idea chords song_key w) = Ok s
    /\ (forall e, key_Key song_key = Raise e -> s = melody_fallback).
Proof.
  unfold generate_melody_idea, try_except.
  destruct (melody_body chords song_key w) as [[out|e] w'] eqn:E.
  - exists out. split; [reflexivity|]. intros e He.
    unfold melody_body in E.
    rewrite (bind_raise _ _ w _ e) in E
      by (rewrite call_Key_run, He; reflexivity).
    discriminate.
  - exists melody_fallback. split; reflexivity.
Qed.

(** The exporter returns a stream when every chord parses. *)
Lemma midi_total (chords : list string) (w : World) :
  (forall ch, In ch chords -> exists c, chord_Chord ch = Ok c) ->
  exists midi_file, fst (create_midi_exercise chords w) = Ok midi_file.
Proof.
  intros H. destruct (parsed_list chords H) as [parsed Hp].
  destruct (for_in_midi_step chords parsed Hp
              (addTempo (mkMIDIFile 1 [] []) 0 0 120) 0%Z
              (mkWorld (trace w ++ [CallMIDIFile 1])%list (draws w) (cursor w)))
    as [time' E].
  revert E.
  unfold create_midi_exercise, midi_of, call_MIDIFile, bind, emit, ret.
  cbn beta iota zeta.
  destruct (for_in chords _ _ _) as [res w2]. cbn [fst]. intros ->.
  eexists. reflexivity.
Qed.

(** The report, given what the two per-chord functions return on the
    tokens. *)
Lemma report_run (chord_progression song_key : string)
    (suggest : string -> list string) (pattern : string -> string)
    (w : World) :
  let chords := PyStr.split_ws (PyStr.strip chord_progression) in
  chords <> [] ->
  (forall ch w, In ch chords ->
                fst (get_scales_for_chord ch song_key w) = Ok (suggest ch)) ->
  (forall ch w, In ch chords ->
                fst (generate_arpeggio_pattern ch w) = Ok (pattern ch)) ->
  exists melody midi_file,
    fst (generate_exercises chord_progression song_key w)
    = Ok (ReportAndMidi
            (report_text song_key chords suggest pattern melody) midi_file)
    /\ (forall e, key_Key song_key = Raise e -> melody = melody_fallback).
Proof.
  intros chords Hne HS HA. unfold generate_exercises. fold chords.
  destruct chords as [|t l] eqn:E; [congruence|]. rewrite <- E in *.
  clear E t l Hne. cbv beta iota zeta.
  (* the scales section *)
  match goal with
  | |- context [for_in chords (scales_step song_key) ?o] => set (out1 := o)
  end.
  destruct (run_ok (for_in chords (scales_step song_key) out1) w
              (out1 ++ flatten (map (scale_bullet suggest) chords)))
    as [w1 E1].
  { rewrite <- fold_left_append. apply for_in_fold.
    intros ch s w0 Hch. unfold scales_step.
    destruct (run_ok (get_scales_for_chord ch song_key) w0 (suggest ch))
      as [w' E']; [now apply HS|].
    rewrite (bind_ok _ _ _ _ _ E'). reflexivity. }
  rewrite (bind_ok _ _ _ _ _ E1).
  (* the arpeggio section *)
  match goal with
  | |- context [for_in chords arpeggio_step ?o] => set (out2 := o)
  end.
  destruct (run_ok (for_in chords arpeggio_step out2) w1
              (out2 ++ flatten (map (arpeggio_bullet pattern) chords)))
    as [w2 E2].
  { rewrite <- fold_left_append. apply for_in_fold.
    intros ch s w0 Hch. unfold arpeggio_step.
    destruct (run_ok (generate_arpeggio_pattern ch) w0 (pattern ch))
      as [w' E']; [now apply HA|].
    rewrite (bind_ok _ _ _ _ _ E'). reflexivity. }
  rewrite (bind_ok _ _ _ _ _ E2).
  (* the melody and the MIDI stream *)
  destruct (melody_idea_total chords song_key w2) as (melody & Hm & Hkey).
  destruct (run_ok _ _ _ Hm) as [w3 E3].
  rewrite (bind_ok _ _ _ _ _ E3).
  destruct (midi_total chords w3) as [midi_file Hmidi].
  { intros ch Hch. exact (scales_ok_parses ch song_key w _ (HS ch w Hch)). }
  destruct (run_ok _ _ _ Hmidi) as [w4 E4].
  rewrite (bind_ok _ _ _ _ _ E4).
  exists melody, midi_file. split; [|exact Hkey]. cbn [ret fst]. do 2 f_equal.
  subst out1 out2. unfold report_text.
  rewrite !PyStrFacts.append_assoc. reflexivity.
Qed.

(** X2.  When every token of a non-empty progression is a playable
    chord symbol (it parses, the chord has a root and a first note), the
    Orchestrator returns a report and a MIDI stream for every Song Key,
    parseable or not, and every random source: nothing is raised. *)
Theorem playable_progression_reports
    (chord_progression song_key : string) (w : World) :
  PyStr.split_ws (PyStr.strip chord_progression) <> [] ->
  Forall playable (PyStr.split_ws (PyStr.strip chord_progression)) ->
  exists output midi_file,
    fst (generate_exercises chord_progression song_key w)
    = Ok (ReportAndMidi output midi_file).
Proof.
  intros Hne Hplay. rewrite Forall_forall in Hplay.
  pose (suggest := fun ch =>
          match fst (get_scales_for_chord ch song_key w) with
          | Ok l => l
          | Raise _ => []
          end).
  pose (pattern := fun ch =>
          match fst (generate_arpeggio_pattern ch w) with
          | Ok a => a
          | Raise _ => ""
          end).
  destruct (report_run chord_progression song_key suggest pattern w Hne)
    as (melody & midi_file & H & _).
  - intros ch w0 Hch.
    destruct (Hplay ch Hch) as (c & p & first & rest & Hc & Hp & _).
    unfold suggest. rewrite !scales_run, Hc, Hp. reflexivity.
  - intros ch w0 Hch.
    destruct (Hplay ch Hch) as (c & p & first & rest & Hc & _ & Hn).
    unfold pattern.
    rewrite (arpeggio_run ch c first rest w Hc Hn).
    apply (arpeggio_run ch c first rest w0 Hc Hn).
  - eauto.
Qed.


End Assembly.

Lemma playable_progression_reports_witness :
  exists output midi_file,
    fst (generate_exercises " C  Am G7 " "no key"
           (Sample.fresh (fun _ => 0)))
    = Ok (ReportAndMidi output midi_file).
Proof.
  apply (@playable_progression_reports Sample.model).
  - discriminate.
  - repeat constructor.
    + exists [60; 64; 67]%Z, 60%Z, 60%Z, [64; 67]%Z. repeat split.
    + exists [69; 72; 76]%Z, 69%Z, 69%Z, [72; 76]%Z. repeat split.
    + exists [67; 71; 74; 77]%Z, 67%Z, 67%Z, [71; 74; 77]%Z. repeat split.
Defined.


(* ================================================================== *)
(** * Melody Sketcher: the loop that goes through *)
(* ================================================================== *)

Section MelodyLoop.
Context {model : MusicModel}.

(** One turn of the loop on a chord that parses, has a root and a derived
    scale: two draws, one slice. *)
Lemma melody_step_run (song_key ch : string) (acc : list string)
    (c : Chord) (r : Pitch) (sc : Scale) (w : World) :
  chord_Chord ch = Ok c ->
  root c = Ok r ->
  scale_derive (scale_template song_key) r = Ok sc ->
  exists i j : Z,
    (0 <= i <= 4)%Z /\ (5 <= j <= 7)%Z
    /\ melody_step song_key ch acc w
       = (Ok (acc ++ map pitch_nameWithOctave
                       (PyStr.slice (getPitches sc) i j))%list,
          mkWorld (trace w ++ [CallChord ch;
                               CallDerive (scale_template song_key) r;
                               CallRandint 0 4 i; CallRandint 5 7 j])%list
                  (draws w) (S (S (cursor w)))).
Proof.
  intros Hch Hroot Hsc.
  set (w1 := mkWorld (trace w ++ [CallChord ch])%list (draws w) (cursor w)).
  set (w2 := mkWorld (trace w1 ++ [CallDerive (scale_template song_key) r])%list
                     (draws w1) (cursor w1)).
  destruct (randint_range 0 4 w2) as (i & Hi & Ei); [lia|].
  set (w3 := mkWorld (trace w2 ++ [CallRandint 0 4 i])%list (draws w2)
                     (S (cursor w2))) in Ei.
  destruct (randint_range 5 7 w3) as (j & Hj & Ej); [lia|].
  exists i, j. split; [exact Hi|]. split; [exact Hj|].
  unfold melody_step.
  rewrite (bind_ok _ _ w w1 c) by (rewrite call_Chord_run, Hch; reflexivity).
  unfold bind at 1, lift. rewrite Hroot.
  rewrite (bind_ok _ _ w1 w2 sc)
    by (rewrite call_derive_run, Hsc; reflexivity).
  rewrite (bind_ok _ _ _ _ _ Ei), (bind_ok _ _ _ _ _ Ej).
  unfold ret. f_equal. subst w3 w2 w1. cbn [trace draws cursor].
  rewrite <- !app_assoc. reflexivity.
Qed.

(** The loop over chords that are all singable: one segment each. *)
Lemma melody_loop_run (song_key : string) (chords : list string) :
  Forall (singable song_key) chords ->
  forall (acc : list string) (w : World),
  exists segs w',
    for_in chords (melody_step song_key) acc w
    = (Ok (acc ++ List.concat segs)%list, w')
    /\ Forall2 (segment_of song_key) chords segs
    /\ (List.length chords <= List.length (List.concat segs)
        <= 7 * List.length chords)%nat
    /\ cursor w' = (cursor w + 2 * List.length chords)%nat
    /\ draws w' = draws w.
Proof.
  induction 1 as [|ch chords Hs _ IH]; intros acc w.
  - exists [], w. cbn. rewrite app_nil_r. repeat split; try lia. constructor.
  - destruct Hs as (c & r & sc & Hc & Hr & Hsc & Hlen).
    destruct (melody_step_run song_key ch acc c r sc w Hc Hr Hsc)
      as (i & j & Hi & Hj & E).
    destruct (PyStrFacts.slice_length (getPitches sc) i j) as [Es El];
      [lia..|].
    cbn [for_in]. rewrite (bind_ok _ _ _ _ _ E).
    set (seg := map pitch_nameWithOctave (PyStr.slice (getPitches sc) i j))
      in *.
    assert (Lseg : List.length seg = Z.to_nat (j - i))
      by (unfold seg; now rewrite length_map).
    match type of E with _ = (_, ?w1) =>
      destruct (IH (acc ++ seg)%list w1) as (segs & w' & E' & F & Hn & Hcur & Hd)
    end.
    exists (seg :: segs), w'. rewrite E', <- app_assoc.
    cbn [cursor draws] in Hcur, Hd. cbn [List.concat List.length].
    rewrite length_app, Lseg.
    repeat split; try lia; try exact Hd.
    constructor; [|exact F].
    exists c, r, sc, (Z.to_nat i), (Z.to_nat (j - i)).
    repeat split; try assumption; try lia.
    unfold seg. now rewrite Es.
Qed.

(** X4.  Under a Song Key that parses, over chords that are all singable
    (each parses, has a root, and its derived scale has seven pitches or
    more), the Melody Sketcher returns the space-joined names of one
    segment per chord, in the order of the chords: the segment of a chord
    is the names of one to seven consecutive pitches of the scale derived
    on that chord's root.  It has drawn exactly two random numbers per
    chord. *)
Theorem melody_size_and_draws
    (chords : list string) (song_key : string) (k : Key) (w : World) :
  key_Key song_key = Ok k ->
  Forall (singable song_key) chords ->
  exists segs w',
    generate_melody_idea chords song_key w
    = (Ok (PyStr.join " " (List.concat segs)), w')
    /\ Forall2 (segment_of song_key) chords segs
    /\ Forall (fun seg => (1 <= List.length seg <= 7)%nat) segs
    /\ (List.length chords <= List.length (List.concat segs)
        <= 7 * List.length chords)%nat
    /\ cursor w' = (cursor w + 2 * List.length chords)%nat
    /\ draws w' = draws w.
Proof.
  intros Hk Hs.
  destruct (melody_loop_run song_key chords Hs []
              (mkWorld (trace w ++ [CallKey song_key])%list (draws w)
                       (cursor w)))
    as (segs & w' & E & F & Hn & Hc & Hd).
  exists segs, w'. cbn [cursor draws app] in *.
  split; [|split; [exact F|split; [|split; [exact Hn|split; assumption]]]].
  - unfold generate_melody_idea, try_except, melody_body.
    rewrite (bind_ok _ _ w _ k) by (rewrite call_Key_run, Hk; reflexivity).
    rewrite (bind_ok _ _ _ _ _ E). reflexivity.
  - clear E Hn Hs Hc Hd.
    induction F as [|ch seg chs sgs Hseg _ IH]; constructor.
    + destruct Hseg as (c & p & sc & start & len & _ & _ & _ & B1 & B2 & _ & L).
      lia.
    + exact IH.
Qed.

(** X5.  In a turn of the loop on a singable chord, the segment added to
    the melody is a run of consecutive pitches of the derived scale that
    starts at one of its first five pitches, holds the fifth (index 4)
    and stops before the eighth (index 7). *)
Theorem segment_spans_fifth_pitch
    (song_key ch : string) (melody_notes : list string)
    (c : Chord) (r : Pitch) (sc : Scale) (w : World) :
  chord_Chord ch = Ok c ->
  root c = Ok r ->
  scale_derive (scale_template song_key) r = Ok sc ->
  (7 <= List.length (getPitches sc))%nat ->
  exists (start len : nat) (fifth : Pitch),
    (start <= 4 < start + len)%nat /\ (start + len <= 7)%nat
    /\ fst (melody_step song_key ch melody_notes w)
       = Ok (melody_notes
             ++ map pitch_nameWithOctave
                  (firstn len (skipn start (getPitches sc))))%list
    /\ nth_error (getPitches sc) 4 = Some fifth
    /\ In fifth (firstn len (skipn start (getPitches sc))).
Proof.
  intros Hc Hr Hsc Hlen.
  destruct (melody_step_run song_key ch melody_notes c r sc w Hc Hr Hsc)
    as (i & j & Hi & Hj & E).
  destruct (PyStrFacts.slice_length (getPitches sc) i j) as [Es _]; [lia..|].
  destruct (nth_error (getPitches sc) 4) as [fifth|] eqn:E5;
    [|apply nth_error_None in E5; lia].
  exists (Z.to_nat i), (Z.to_nat (j - i)), fifth.
  rewrite E, Es. cbn [fst]. repeat split; try lia.
  apply (nth_error_In _ (4 - Z.to_nat i)).
  rewrite nth_error_firstn, nth_error_skipn.
  replace (Z.to_nat i + (4 - Z.to_nat i))%nat with 4%nat by lia.
  destruct (Nat.ltb_spec (4 - Z.to_nat i) (Z.to_nat (j - i))); [exact E5 | lia].
Qed.

End MelodyLoop.

Lemma melody_size_and_draws_witness :
  exists segs w',
    generate_melody_idea ["C"; "Am"] "A minor" (Sample.fresh (fun n => n))
    = (Ok (PyStr.join " " (List.concat segs)), w')
    /\ Forall2 (segment_of "A minor") ["C"; "Am"] segs
    /\ Forall (fun seg => (1 <= List.length seg <= 7)%nat) segs
    /\ (2 <= List.length (List.concat segs) <= 7 * 2)%nat
    /\ cursor w' = (0 + 2 * 2)%nat
    /\ draws w' = (fun n => n).
Proof.
  apply (@melody_size_and_draws Sample.model ["C"; "Am"] "A minor" "A").
  - reflexivity.
  - repeat constructor.
    + exists [60; 64; 67]%Z, 60%Z, [60; 62; 63; 65; 67; 68; 70; 72]%Z.
      repeat split. simpl. lia.
    + exists [69; 72; 76]%Z, 69%Z, [69; 71; 72; 74; 76; 77; 79; 81]%Z.
      repeat split. simpl. lia.
Defined.

Lemma segment_spans_fifth_pitch_witness :
  let sc := [67; 69; 71; 72; 74; 76; 78; 79]%Z in
  exists (start len : nat) (fifth : Z),
    (start <= 4 < start + len)%nat /\ (start + len <= 7)%nat
    /\ fst (melody_step "G major" "G" ["C4"]
              (Sample.fresh (Sample.two_draws 2 1)))
       = Ok (["C4"]
             ++ map Sample.nameWithOctave (firstn len (skipn start sc)))%list
    /\ nth_error sc 4 = Some fifth
    /\ In fifth (firstn len (skipn start sc)).
Proof.
  intros sc.
  apply (@segment_spans_fifth_pitch Sample.model "G major" "G" ["C4"]
           [67; 71; 74]%Z 67%Z sc).
  - reflexivity.
  - reflexivity.
  - reflexivity.
  - simpl. lia.
Defined.

(* ================================================================== *)
(** * What reaches the Chord Model *)
(* ================================================================== *)

Section ChordCalls.
Context {model : MusicModel}.

Lemma in_append (x : ascii) (a b : string) :
  In x (list_ascii_of_string (a ++ b)) ->
  In x (list_ascii_of_string a) \/ In x (list_ascii_of_string b).
Proof.
  induction a as [|c a IH]; cbn; [now right|].
  intros [->|H]; [now left; left|]. destruct (IH H); [left; now right | now right].
Qed.

(** The pieces of [split()] are words. *)
Lemma split_ws_from_wordlike (s : string) (cur : option string) :
  (forall t, cur = Some t -> wordlike t) ->
  Forall wordlike (PyStr.split_ws_from cur s).
Proof.
  revert cur; induction s as [|c s IH]; intros cur Hcur; cbn.
  - destruct cur as [t|]; [|constructor]. constructor; [auto | constructor].
  - destruct (PyStr.is_space c) eqn:E.
    + destruct cur as [t|].
      * constructor; [auto|]. apply IH. discriminate.
      * apply IH. discriminate.
    + destruct cur as [t|]; apply IH; intros t' [= <-].
      * destruct (Hcur t eq_refl) as [Hne Hsp]. split.
        -- destruct t; [congruence | discriminate].
        -- intros x Hx. apply in_append in Hx as [Hx|[<-|[]]]; auto.
      * split; [discriminate|]. intros x [<-|[]]. exact E.
Qed.

Lemma appends_for_in_mem (P : Event -> Prop) {A S} (l : list A)
    (body : A -> S -> M S) :
  (forall x s, In x l -> appends P (body x s)) ->
  forall s, appends P (for_in l body s).
Proof.
  induction l as [|x l IH]; intros Hb s; cbn [for_in].
  - apply appends_ret.
  - apply appends_bind; [apply Hb; now left|].
    intros s'. apply IH. intros y s0 Hy. apply Hb. now right.
Qed.

Lemma call_Chord_appends (names : list string) (ch : string) :
  In ch names -> appends (chord_call_in names) (call_Chord ch).
Proof.
  intros H. unfold call_Chord. apply appends_bind.
  - apply appends_emit. exact H.
  - intros _. apply appends_lift.
Qed.

Lemma exporter_appends (names : list string) :
  appends (chord_call_in names) (create_midi_exercise names).
Proof.
  unfold create_midi_exercise, midi_of, call_MIDIFile.
  apply appends_bind; [|intros; apply appends_ret].
  apply appends_bind.
  - apply appends_bind; [apply appends_emit; exact I | intros; apply appends_ret].
  - intros midi. apply appends_bind; [|intros [? ?]; apply appends_ret].
    apply appends_for_in_mem. intros ch [m t] Hch. unfold midi_step.
    apply appends_bind; [now apply call_Chord_appends|].
    intros c. destruct (fold_left _ _ _). apply appends_ret.
Qed.

Lemma melody_appends (names : list string) (song_key : string) :
  appends (chord_call_in names) (generate_melody_idea names song_key).
Proof.
  unfold generate_melody_idea, melody_body, call_Key.
  apply appends_try_except; [|apply appends_ret].
  apply appends_bind.
  - apply appends_bind; [apply appends_emit; exact I | intros; apply appends_lift].
  - intros _. apply appends_bind; [|intros; apply appends_ret].
    apply appends_for_in_mem. intros ch acc Hch.
    unfold melody_step, call_derive.
    apply appends_bind; [now apply call_Chord_appends | intros c].
    apply appends_bind; [apply appends_lift | intros r].
    apply appends_bind.
    { apply appends_bind; [apply appends_emit; exact I|].
      intros; apply appends_lift. }
    intros sc.
    apply appends_bind; [apply appends_randint; intros; exact I | intros i].
    apply appends_bind; [apply appends_randint; intros; exact I | intros j].
    apply appends_ret.
Qed.

(** X6.  Whatever the progression and the key, the only chord symbols the
    whole call hands to the Chord Model are tokens of the stripped and
    split progression, and every such token is a word: it is not empty
    and holds no white space. *)
Theorem chords_built_from_tokens
    (chord_progression song_key : string) (w : World) :
  exists new,
    trace (snd (generate_exercises chord_progression song_key w))
    = (trace w ++ new)%list
    /\ Forall (chord_call_in
                 (PyStr.split_ws (PyStr.strip chord_progression))) new
    /\ Forall wordlike (PyStr.split_ws (PyStr.strip chord_progression)).
Proof.
  assert (W : Forall wordlike (PyStr.split_ws (PyStr.strip chord_progression)))
    by (apply split_ws_from_wordlike; discriminate).
  assert (A : appends (chord_call_in
                         (PyStr.split_ws (PyStr.strip chord_progression)))
                      (generate_exercises chord_progression song_key)).
  { unfold generate_exercises.
    set (chords := PyStr.split_ws (PyStr.strip chord_progression)).
    assert (G : forall l : list string,
               (forall x, In x l -> In x chords) ->
               appends (chord_call_in chords)
                 match l with
                 | [] => ret (Message "Please enter a chord progression.")
                 | _ :: _ =>
                     output <- for_in l (scales_step song_key)
                       (("**Song Key:** " ++ song_key ++ nl
                         ++ "**Chord Progression:** " ++ PyStr.join " " l
                         ++ nl ++ nl)
                        ++ "### Suggested Scales for Improvisation:" ++ nl) ;;
                     output <- for_in l arpeggio_step
                       (output ++ nl
                        ++ "### Arpeggio Exercises (Practice in both hands, ascending/descending):"
                        ++ nl) ;;
                     melody_idea <- generate_melody_idea l song_key ;;
                     midi_file <- create_midi_exercise l ;;
                     ret (ReportAndMidi
                            ((output ++ nl
                              ++ "### Simple Melody Improv Idea (Play over the progression):"
                              ++ nl ++ melody_idea ++ nl ++ nl)
                             ++ "Practice Tip: Start slow, loop the progression, and gradually add your own variations using the scales above.")
                            midi_file)
                 end).
    { intros l Hl. destruct l as [|t l]; [apply appends_ret|].
      assert (Sub : forall R (m : M R),
                 appends (chord_call_in (t :: l)) m ->
                 appends (chord_call_in chords) m).
      { intros R m HP w0. destruct (HP w0) as (new & E & F).
        exists new. split; [exact E|].
        eapply Forall_impl; [|exact F].
        intros [n| | | |]; cbn; auto. }
      apply appends_bind.
      { apply appends_for_in_mem. intros ch out Hch.
        unfold scales_step, get_scales_for_chord.
        apply appends_bind; [|intros; apply appends_ret].
        apply appends_bind; [apply call_Chord_appends; auto | intros c].
        apply appends_bind; [apply appends_lift | intros r].
        destruct (isMajorTriad c); [apply appends_ret|].
        destruct (isMinorTriad c); [apply appends_ret|].
        destruct (isDominantSeventh c); apply appends_ret. }
      intros out1. apply appends_bind.
      { apply appends_for_in_mem. intros ch out Hch.
        unfold arpeggio_step, generate_arpeggio_pattern, arpeggio_of, index0.
        apply appends_bind; [|intros; apply appends_ret].
        apply appends_bind; [apply call_Chord_appends; auto | intros c].
        apply appends_bind; [|intros; apply appends_ret].
        apply appends_bind; [|intros; apply appends_ret].
        destruct (notes c); [apply appends_raise | apply appends_ret]. }
      intros out2. apply appends_bind; [apply Sub, melody_appends|].
      intros melody. apply appends_bind; [apply Sub, exporter_appends|].
      intros; apply appends_ret. }
    apply G. auto. }
  destruct (A w) as (new & E & F). exists new. auto.
Qed.

End ChordCalls.

(* ================================================================== *)
(** * MIDI Exporter: failure, the place of each note, independence *)
(* ================================================================== *)

Section MidiMore.
Context {model : MusicModel}.

Lemma midi_step_run (name : string) (midi : MIDIFile) (time : Z) (w : World) :
  midi_step 0 0 1 100 name (midi, time) w
  = (match chord_Chord name with
     | Ok ch =>
         Ok (mkMIDIFile (numTracks midi) (tempo_events midi)
               (note_events midi ++ notes_from time (pitches ch))%list,
             (time + Z.of_nat (List.length (pitches ch)) + 1 * 2)%Z)
     | Raise e => Raise e
     end,
     mkWorld (trace w ++ [CallChord name])%list (draws w) (cursor w)).
Proof.
  unfold midi_step, bind. rewrite call_Chord_run.
  destruct (chord_Chord name) as [ch|e]; [|reflexivity].
  rewrite fold_add_pitch. reflexivity.
Qed.

(** The stream returned over chords that all parse. *)
Lemma create_midi_run (chords : list string) (parsed : list Chord)
    (w : World) :
  map chord_Chord chords = map Ok parsed ->
  fst (create_midi_exercise chords w)
  = Ok (mkBytesIO
          (Some (mkMIDIFile 1 [mkTempo 0 0 120]
                            (List.concat (blocks_from 0 parsed))))
          (Offset 0)).
Proof.
  intros H.
  destruct (for_in_midi_step chords parsed H
              (addTempo (mkMIDIFile 1 [] []) 0 0 120) 0%Z
              (mkWorld (trace w ++ [CallMIDIFile 1])%list (draws w) (cursor w)))
    as [time' E].
  revert E.
  unfold create_midi_exercise, midi_of, call_MIDIFile, bind, emit, ret.
  cbn beta iota zeta.
  destruct (for_in chords _ _ _) as [res w2]. cbn [fst]. intros ->.
  reflexivity.
Qed.

(** X7.  When the first chord symbols parse and the next one does not,
    the exporter raises that symbol's error and returns no stream, the
    notes added so far being lost with the MIDI object; it has built one
    MIDI object and the chords up to that symbol, nothing else. *)
Theorem exporter_stops_at_bad_chord
    (pre post : list string) (ch : string) (e : Exn) (w : World) :
  Forall (fun name => exists c, chord_Chord name = Ok c) pre ->
  chord_Chord ch = Raise e ->
  fst (create_midi_exercise (pre ++ ch :: post) w) = Raise e
  /\ trace (snd (create_midi_exercise (pre ++ ch :: post) w))
     = (trace w ++ CallMIDIFile 1 :: map CallChord (pre ++ [ch]))%list.
Proof.
  intros Hpre Hch.
  set (w1 := mkWorld (trace w ++ [CallMIDIFile 1])%list (draws w) (cursor w)).
  destruct (for_in_stops (midi_step 0 0 1 100) CallChord pre post ch e)
    with (s := (addTempo (mkMIDIFile 1 [] []) 0 0 120, 0%Z)) (w := w1)
    as [R T].
  - intros y [m t] w0 Hy. rewrite Forall_forall in Hpre.
    destruct (Hpre y Hy) as [c Hc]. rewrite midi_step_run, Hc. cbn. eauto.
  - intros [m t] w0. rewrite midi_step_run, Hch. reflexivity.
  - intros y [m t] w0. rewrite midi_step_run. reflexivity.
  - revert R T.
    unfold create_midi_exercise, midi_of, call_MIDIFile, bind, emit, ret.
    cbn beta iota zeta. fold w1.
    destruct (for_in (pre ++ ch :: post) _ _ w1) as [[[m t]|e'] w2];
      cbn [fst snd]; intros R T; [discriminate|].
    injection R as ->. split; [reflexivity|].
    rewrite T. subst w1. cbn [trace]. rewrite <- app_assoc. reflexivity.
Qed.

Lemma notes_before_0 (parsed : list Chord) : notes_before parsed 0 = 0%nat.
Proof. reflexivity. Qed.

Lemma notes_before_S (c0 : Chord) (parsed : list Chord) (i : nat) :
  notes_before (c0 :: parsed) (S i)
  = (List.length (pitches c0) + notes_before parsed i)%nat.
Proof. reflexivity. Qed.

(** The notes of the [i]-th block, found in the flat list. *)
Lemma blocks_from_place (parsed : list Chord) (time : Z) (i j : nat)
    (ch : Chord) (p : Pitch) :
  nth_error parsed i = Some ch ->
  nth_error (pitches ch) j = Some p ->
  nth_error (List.concat (blocks_from time parsed)) (notes_before parsed i + j)
  = Some (mkNote 0 0 (pitch_midi p)
                 (time + Z.of_nat (notes_before parsed i + j + 2 * i)) 1 100).
Proof.
  revert time i; induction parsed as [|c0 parsed IH]; intros time i Hi Hj.
  - destruct i; discriminate.
  - cbn [blocks_from List.concat]. destruct i as [|i].
    + injection Hi as ->. rewrite notes_before_0.
      cbn [Nat.add Nat.mul]. rewrite Nat.add_0_r.
      rewrite nth_error_app1
        by (rewrite notes_from_length; apply nth_error_Some; congruence).
      clear IH. revert time j Hj.
      induction (pitches ch) as [|q ps IHp]; intros time j Hj.
      * destruct j; discriminate.
      * destruct j as [|j]; cbn in Hj |- *.
        -- injection Hj as ->. do 2 f_equal. lia.
        -- rewrite (IHp _ _ Hj). do 2 f_equal. lia.
    + cbn in Hi. rewrite notes_before_S.
      rewrite nth_error_app2 by (rewrite notes_from_length; lia).
      rewrite notes_from_length.
      replace (List.length (pitches c0) + notes_before parsed i + j
               - List.length (pitches c0))%nat
        with (notes_before parsed i + j)%nat by lia.
      rewrite (IH _ _ Hi Hj). do 2 f_equal. lia.
Qed.

(** X8.  Over chords that all parse, the note of the [j]-th pitch of the
    [i]-th chord (both from 0) is the note number [n + j] of the stream,
    [n] being the number of pitches of the chords before, and it starts
    at time [n + j + 2 * i]: one unit per note played before it and two
    per chord finished before it.  It carries that pitch's MIDI number,
    duration 1, velocity 100, channel 0, track 0. *)
Theorem note_place_and_onset
    (chords : list string) (parsed : list Chord) (w : World) :
  map chord_Chord chords = map Ok parsed ->
  exists midi,
    fst (create_midi_exercise chords w)
    = Ok (mkBytesIO (Some midi) (Offset 0))
    /\ forall i j ch p,
         nth_error parsed i = Some ch ->
         nth_error (pitches ch) j = Some p ->
         nth_error (note_events midi) (notes_before parsed i + j)
         = Some (mkNote 0 0 (pitch_midi p)
                        (Z.of_nat (notes_before parsed i + j + 2 * i)) 1 100).
Proof.
  intros H. eexists. split; [exact (create_midi_run chords parsed w H)|].
  intros i j ch p Hi Hj. cbn [note_events].
  rewrite (blocks_from_place parsed 0 i j ch p Hi Hj). reflexivity.
Qed.

Lemma sorted_neighbours (l : list NoteEvent) (k : nat) (e1 e2 : NoteEvent) :
  StronglySorted Z.lt (map note_time l) ->
  nth_error l k = Some e1 ->
  nth_error l (S k) = Some e2 ->
  (note_time e1 < note_time e2)%Z.
Proof.
  revert k; induction l as [|x l IH]; intros k Hs H1 H2.
  - destruct k; discriminate.
  - cbn [map] in Hs. apply StronglySorted_inv in Hs as [Hs Hx].
    destruct k as [|k].
    + injection H1 as ->. change (nth_error l 0 = Some e2) in H2.
      rewrite Forall_forall in Hx.
      apply Hx, in_map, (nth_error_In _ _ H2).
    + exact (IH k Hs H1 H2).
Qed.

Lemma blocks_from_end (chs : list Chord) (time : Z) :
  Forall (fun e => (note_time e + 1
                    <= time + Z.of_nat (notes_before chs (List.length chs)
                                        + 2 * List.length chs))%Z)
         (List.concat (blocks_from time chs)).
Proof.
  revert time; induction chs as [|ch chs IH]; intros time; [constructor|].
  cbn [blocks_from List.concat List.length]. rewrite notes_before_S.
  apply Forall_app. split.
  - apply Forall_forall. intros e He.
    apply In_nth_error in He as [k Hk].
    assert (k < List.length (pitches ch))%nat
      by (rewrite <- (notes_from_length time); apply nth_error_Some; congruence).
    rewrite (notes_from_nth _ _ _ _ Hk). lia.
  - eapply Forall_impl; [|apply IH]. cbn. intros e He. lia.
Qed.

(** X9.  Over chords that all parse, the notes of the stream are played
    one at a time: each note has ended when the next one starts, none
    starts before time 0, and the last has ended by the time that counts
    one unit per pitch and two per chord. *)
Theorem notes_never_overlap
    (chords : list string) (parsed : list Chord) (w : World) :
  map chord_Chord chords = map Ok parsed ->
  exists midi,
    fst (create_midi_exercise chords w)
    = Ok (mkBytesIO (Some midi) (Offset 0))
    /\ (forall k e1 e2,
          nth_error (note_events midi) k = Some e1 ->
          nth_error (note_events midi) (S k) = Some e2 ->
          (note_time e1 + note_duration e1 <= note_time e2)%Z)
    /\ Forall (fun e =>
                 (0 <= note_time e)%Z
                 /\ (note_time e + note_duration e
                     <= Z.of_nat (notes_before parsed (List.length parsed)
                                  + 2 * List.length parsed))%Z)
              (note_events midi).
Proof.
  intros H. eexists. split; [exact (create_midi_run chords parsed w H)|].
  cbn [note_events].
  pose proof (blocks_from_fixed parsed 0) as Fx.
  destruct (blocks_from_sorted parsed 0) as [Srt Low].
  rewrite Forall_forall in Fx. split.
  - intros k e1 e2 H1 H2.
    destruct (Fx e1 (nth_error_In _ _ H1)) as (D & _).
    pose proof (sorted_neighbours _ _ _ _ Srt H1 H2). lia.
  - pose proof (blocks_from_end parsed 0) as End.
    rewrite Forall_forall in End, Low |- *. intros e He.
    destruct (Fx e He) as (D & _). specialize (End e He).
    specialize (Low (note_time e) (in_map note_time _ _ He)). lia.
Qed.

(** The stream does not depend on the world the exporter runs in. *)
Lemma exporter_world_free (chords : list string) (w w' : World) :
  fst (create_midi_exercise chords w) = fst (create_midi_exercise chords w').
Proof.
  assert (L : forall acc w w',
             fst (for_in chords (midi_step 0 0 1 100) acc w)
             = fst (for_in chords (midi_step 0 0 1 100) acc w')).
  { induction chords as [|c chords IH]; intros [m t] w1 w2; [reflexivity|].
    cbn [for_in]. unfold bind. rewrite !midi_step_run.
    destruct (chord_Chord c) as [ch|e]; [apply IH | reflexivity]. }
  pose proof (L (addTempo (mkMIDIFile 1 [] []) 0 0 120, 0%Z)
                (mkWorld (trace w ++ [CallMIDIFile 1])%list (draws w)
                         (cursor w))
                (mkWorld (trace w' ++ [CallMIDIFile 1])%list (draws w')
                         (cursor w'))) as E.
  revert E.
  unfold create_midi_exercise, midi_of, call_MIDIFile, bind, emit, ret.
  cbn beta iota zeta.
  match goal with
  | |- fst ?a = fst ?b -> _ =>
      destruct a as [[[m1 t1]|e1] wa]; destruct b as [[[m2 t2]|e2] wb]
  end; cbn [fst]; intros E; congruence.
Qed.

End MidiMore.

Lemma exporter_stops_at_bad_chord_witness :
  fst (create_midi_exercise (["C"; "G7"] ++ "H" :: ["F"])
         (Sample.fresh (fun _ => 0)))
  = Raise (LibraryError "H")
  /\ trace (snd (create_midi_exercise (["C"; "G7"] ++ "H" :: ["F"])
                   (Sample.fresh (fun _ => 0))))
     = ([] ++ CallMIDIFile 1 :: map CallChord (["C"; "G7"] ++ ["H"]))%list.
Proof.
  apply (@exporter_stops_at_bad_chord Sample.model ["C"; "G7"] ["F"] "H"
           (LibraryError "H")).
  - repeat constructor; eexists; reflexivity.
  - reflexivity.
Defined.

Lemma note_place_and_onset_witness :
  let parsed := [[60; 64; 67]; [67; 71; 74; 77]; [65; 69; 72]]%Z in
  exists midi,
    fst (create_midi_exercise ["C"; "G7"; "F"] (Sample.fresh (fun _ => 0)))
    = Ok (mkBytesIO (Some midi) (Offset 0))
    /\ forall i j (ch : list Z) (p : Z),
         nth_error parsed i = Some ch ->
         nth_error ch j = Some p ->
         nth_error (note_events midi) (notes_before parsed i + j)
         = Some (mkNote 0 0 p
                        (Z.of_nat (notes_before parsed i + j + 2 * i)) 1 100).
Proof.
  exact (@note_place_and_onset Sample.model ["C"; "G7"; "F"]
           [[60; 64; 67]; [67; 71; 74; 77]; [65; 69; 72]]%Z
           (Sample.fresh (fun _ => 0)) eq_refl).
Defined.

Lemma notes_never_overlap_witness :
  exists midi,
    fst (create_midi_exercise ["C"; "G7"] (Sample.fresh (fun _ => 0)))
    = Ok (mkBytesIO (Some midi) (Offset 0))
    /\ (forall k e1 e2,
          nth_error (note_events midi) k = Some e1 ->
          nth_error (note_events midi) (S k) = Some e2 ->
          (note_time e1 + note_duration e1 <= note_time e2)%Z)
    /\ Forall (fun e =>
                 (0 <= note_time e)%Z
                 /\ (note_time e + note_duration e <= Z.of_nat (7 + 2 * 2))%Z)
              (note_events midi).
Proof.
  exact (@notes_never_overlap Sample.model ["C"; "G7"]
           [[60; 64; 67]; [67; 71; 74; 77]]%Z
           (Sample.fresh (fun _ => 0)) eq_refl).
Defined.

(* ================================================================== *)
(** * Exercise Orchestrator: the stream of a report; the formatter's
      outcomes *)
(* ================================================================== *)

Section Outcomes.
Context {model : MusicModel}.

(** X10.  The MIDI stream of a report is the one the exporter gives on
    the tokens of the progression in any world: it depends neither on the
    Song Key nor on the random source, so two reports of one progression
    carry the same stream. *)
Theorem report_stream_ignores_key_and_chance
    (chord_progression k1 k2 : string) (w1 w2 : World)
    (o1 o2 : string) (m1 m2 : BytesIO) :
  fst (generate_exercises chord_progression k1 w1) = Ok (ReportAndMidi o1 m1) ->
  fst (generate_exercises chord_progression k2 w2) = Ok (ReportAndMidi o2 m2) ->
  m1 = m2
  /\ forall w,
       fst (create_midi_exercise
              (PyStr.split_ws (PyStr.strip chord_progression)) w) = Ok m1.
Proof.
  assert (Inv : forall key w o m,
             fst (generate_exercises chord_progression key w)
             = Ok (ReportAndMidi o m) ->
             forall w',
               fst (create_midi_exercise
                      (PyStr.split_ws (PyStr.strip chord_progression)) w')
               = Ok m).
  { intros key w o m. unfold generate_exercises.
    destruct (PyStr.split_ws (PyStr.strip chord_progression)) as [|t l];
      [discriminate|].
    unfold bind.
    destruct (for_in _ (scales_step key) _ w) as [[out1|?] wa];
      [|discriminate].
    destruct (for_in _ arpeggio_step _ wa) as [[out2|?] wb]; [|discriminate].
    destruct (generate_melody_idea _ key wb) as [[mel|?] wc]; [|discriminate].
    destruct (create_midi_exercise _ wc) as [[b|?] wd] eqn:Em;
      [|discriminate].
    cbn [ret fst]. intros [= _ <-] w'.
    rewrite (exporter_world_free _ w' wc), Em. reflexivity. }
  intros H1 H2. split; [|exact (Inv _ _ _ _ H1)].
  pose proof (Inv _ _ _ _ H1 w1) as E1.
  pose proof (Inv _ _ _ _ H2 w1) as E2. congruence.
Qed.

(** X11.  The Arpeggio Formatter has three outcomes and builds one chord
    in each: the parser's own error when the symbol does not parse,
    [IndexError] when the chord has no note, and otherwise the pattern;
    so it returns a pattern exactly for the symbols that parse to a chord
    with a first note. *)
Theorem arpeggio_outcomes (chord_name : string) (w : World) :
  trace (snd (generate_arpeggio_pattern chord_name w))
  = (trace w ++ [CallChord chord_name])%list
  /\ (forall e, chord_Chord chord_name = Raise e ->
                fst (generate_arpeggio_pattern chord_name w) = Raise e)
  /\ (forall ch, chord_Chord chord_name = Ok ch -> notes ch = [] ->
                 fst (generate_arpeggio_pattern chord_name w)
                 = Raise IndexError)
  /\ ((exists s, fst (generate_arpeggio_pattern chord_name w) = Ok s)
      <-> exists ch first rest,
            chord_Chord chord_name = Ok ch /\ notes ch = first :: rest).
Proof.
  unfold generate_arpeggio_pattern, bind. rewrite call_Chord_run.
  destruct (chord_Chord chord_name) as [ch|e].
  - unfold arpeggio_of, index0, bind.
    destruct (notes ch) as [|first rest] eqn:N; cbn [fst snd trace raise ret].
    + repeat split; try discriminate; try reflexivity.
      * intros [s Hs]. discriminate.
      * intros (c & f & r & [= <-] & Hn). congruence.
    + repeat split; try discriminate; try reflexivity.
      * intros c [= <-]. congruence.
      * intros _. exists ch, first, rest. now split.
      * intros _. eexists. reflexivity.
  - cbn [fst snd trace]. repeat split; try discriminate; try reflexivity.
    + intros e' [= <-]. reflexivity.
    + intros [s Hs]. discriminate.
    + intros (c & f & r & Hc & _). discriminate.
Qed.

End Outcomes.

Lemma report_stream_ignores_key_and_chance_witness :
  exists o1 o2 m1 m2,
    fst (generate_exercises "C G" "C major" (Sample.fresh (fun n => n)))
    = Ok (ReportAndMidi o1 m1)
    /\ fst (generate_exercises "C G" "?" (Sample.fresh (fun _ => 0)))
       = Ok (ReportAndMidi o2 m2)
    /\ m1 = m2
    /\ forall w,
         fst (create_midi_exercise (PyStr.split_ws (PyStr.strip "C G")) w)
         = Ok m1.
Proof.
  assert (E1 : exists o m,
             fst (generate_exercises "C G" "C major"
                    (Sample.fresh (fun n => n)))
             = Ok (ReportAndMidi o m))
    by (vm_compute; do 2 eexists; reflexivity).
  assert (E2 : exists o m,
             fst (generate_exercises "C G" "?" (Sample.fresh (fun _ => 0)))
             = Ok (ReportAndMidi o m))
    by (vm_compute; do 2 eexists; reflexivity).
  destruct E1 as (o1 & m1 & H1). destruct E2 as (o2 & m2 & H2).
  exists o1, o2, m1, m2. split; [exact H1|]. split; [exact H2|].
  exact (@report_stream_ignores_key_and_chance Sample.model "C G"
           "C major" "?" _ _ o1 o2 m1 m2 H1 H2).
Defined.

(* ================================================================== *)
(** * The progression is read through its tokens only *)
(* ================================================================== *)

Module TokenFacts.
Import PyStr.

Lemma split_ws_from_blank (s : string) (cur : option string) :
  blank s ->
  split_ws_from cur s = match cur with None => [] | Some t => [t] end.
Proof.
  revert cur; induction s as [|c s IH]; intros cur H; [reflexivity|].
  apply PyStrFacts.blank_cons in H as [Hc Hs]. cbn. rewrite Hc.
  destruct cur; now rewrite (IH None Hs).
Qed.

Lemma split_ws_from_cons (c : ascii) (s : string) (cur : option string) :
  split_ws_from cur (String c s)
  = if is_space c then
      match cur with
      | None => split_ws_from None s
      | Some t => t :: split_ws_from None s
      end
    else
      match cur with
      | None => split_ws_from (Some (String c "")) s
      | Some t => split_ws_from (Some (t ++ String c "")) s
      end.
Proof. reflexivity. Qed.

Lemma split_ws_lstrip (s : string) :
  split_ws_from None (lstrip s) = split_ws_from None s.
Proof.
  induction s as [|c s IH]; [reflexivity|]. cbn.
  destruct (is_space c) eqn:E; [exact IH|]. cbn. now rewrite E.
Qed.

Lemma split_ws_rstrip (s : string) (cur : option string) :
  split_ws_from cur (rstrip s) = split_ws_from cur s.
Proof.
  revert cur; induction s as [|c s IH]; intros cur; [reflexivity|].
  cbn [rstrip]. destruct (rstrip s) as [|b r] eqn:R.
  - apply PyStrFacts.rstrip_empty in R.
    cbn [split_ws_from]. destruct (is_space c) eqn:E.
    + destruct cur; now rewrite (split_ws_from_blank s None R).
    + cbn. rewrite E. destruct cur; now rewrite split_ws_from_blank.
  - rewrite (split_ws_from_cons c (String b r)), (split_ws_from_cons c s).
    destruct (is_space c); destruct cur; now rewrite IH.
Qed.

(** [s.strip().split()] and [s.split()] are the same list. *)
Lemma split_ws_strip (s : string) : split_ws (strip s) = split_ws s.
Proof.
  unfold split_ws, strip. now rewrite split_ws_rstrip, split_ws_lstrip.
Qed.

Lemma split_ws_from_word (t r u : string) :
  (forall c, In c (list_ascii_of_string t) -> is_space c = false) ->
  split_ws_from (Some u) (t ++ r) = split_ws_from (Some (u ++ t)) r.
Proof.
  revert u; induction t as [|c t IH]; intros u H.
  - cbn. now rewrite PyStrFacts.append_empty_r.
  - cbn. rewrite (H c (or_introl eq_refl)).
    rewrite IH by (intros x Hx; apply H; now right).
    now rewrite PyStrFacts.append_assoc.
Qed.

Lemma split_ws_from_first (t r : string) :
  wordlike t ->
  split_ws_from None (t ++ r) = split_ws_from (Some t) r.
Proof.
  intros [Hne Hsp]. destruct t as [|c t]; [congruence|].
  cbn. rewrite (Hsp c (or_introl eq_refl)).
  apply (split_ws_from_word t r (String c "")).
  intros x Hx. apply Hsp. now right.
Qed.

(** Words joined by single spaces split back into the same words. *)
Lemma split_ws_join (l : list string) :
  Forall wordlike l -> split_ws (join " " l) = l.
Proof.
  unfold split_ws. induction 1 as [|t l Ht Hl IH]; [reflexivity|].
  destruct l as [|t2 l].
  - cbn [join]. rewrite <- (PyStrFacts.append_empty_r t) at 1.
    now rewrite split_ws_from_first.
  - change (join " " (t :: t2 :: l)) with (t ++ " " ++ join " " (t2 :: l)).
    rewrite split_ws_from_first by exact Ht.
    change (" " ++ join " " (t2 :: l)) with (String " " (join " " (t2 :: l))).
    cbn [split_ws_from]. change (is_space " ") with true. cbn iota.
    now rewrite IH.
Qed.

End TokenFacts.

Section WhiteSpace.
Context {model : MusicModel}.

(** X13.  Only the tokens of the progression matter: the progression
    rewritten as its tokens joined by single spaces gives the same
    result, report or message or error, and the same world, whatever
    white space (spaces, tabs, line ends, at the ends or between chords)
    the original had. *)
Theorem white_space_is_immaterial
    (chord_progression song_key : string) (w : World) :
  generate_exercises
    (PyStr.join " " (PyStr.split_ws (PyStr.strip chord_progression)))
    song_key w
  = generate_exercises chord_progression song_key w.
Proof.
  unfold generate_exercises.
  rewrite (TokenFacts.split_ws_strip (PyStr.join " " _)).
  rewrite TokenFacts.split_ws_join; [reflexivity|].
  apply split_ws_from_wordlike. discriminate.
Qed.

End WhiteSpace.
